(** * nimble-website: the scroll-triggered chat playback, the visibility
      hooks, the theme flag and the two e-mail forms

    A shallow embedding of the state-bearing logic of the landing page:

    - [ComparisonSection] (the monolithic page source, lines 577-676): the
      scripted chat, its timer chain and the effect that starts it;
    - [useIntersectionObserver] (App.js:7-35, and the copy at the top of the
      monolithic source): the one-shot visibility hook;
    - [App] (App.js:38-111): the theme flag and the lead-capture form, with
      the part of [PlanSelectionModal] (App.js:637-766) that gates the form;
    - [HeroSection] (monolithic source, lines 171-208): the Contact Us
      handler.

    React state is a record, every handler and timer callback is a function
    on that record, and the browser's timer queue is an explicit list driven
    by a virtual clock. *)

From stdpp Require Import base strings list gmap numbers.

Open Scope Z_scope.
Open Scope nat_scope.

(** ** The chat script *)

(** [{ type: 'ai' | 'customer', text: ... }] *)
Record Message := { type : string; text : string }.

#[global] Instance Message_eq_dec : EqDecision Message.
Proof. solve_decision. Defined.

(** [msg.type === 'ai']; every other [type] takes the [else] branch. *)
Definition is_ai (msg : Message) : bool := bool_decide (type msg = "ai").

(** The character [U+0022], which closes the text of the third agent line. *)
Definition dquote : string := String (Ascii.ascii_of_nat 34) EmptyString.

(** [const messages = [...]], lines 577-594. *)
Definition messages : list Message :=
  [ {| type := "ai"; text := "Hello! How can I assist you today?" |};
    {| type := "customer"; text := "How do I create a Return Request?" |};
    {| type := "ai";
       text := "You can create a Return in three simple steps: 1) Tap on MyOrders 2) Choose the item to be Returned 3) Enter details requested and create a return request" |};
    {| type := "customer"; text := "Where should I self-ship the Returns?" |};
    {| type := "ai";
       text := "You can send the return to any one of the following returns processing facilities listed below. Please ensure that you specify the name of the seller you purchased the products from (You can find the seller name on your order invoice) and dispatch the package to the address listed below. Kindly do not send it to any other address as the return package would not be treated as accepted." +:+ dquote |};
    {| type := "customer"; text := "I have created a Return request. When will I get the refund" |};
    {| type := "ai";
       text := "Refund will be initiated upon successful pickup as per the Returns Policy. The refund amount is expected to reflect in the customer account within the following timelines: NEFT - 1 to 3 business days post refund initiation, Cyntra Credit - Instant, Online Refund – 7 to 10 days post refund initiation, depending on your bank partner, 'PhonePe wallet' – Instant" |} ].

(** ** The browser's timer queue *)

Module EventLoop.

(** The closures handed to [setTimeout], defunctionalised.  [r] names the
    call of [startChatAnimation] whose variables the closure captures. *)
Inductive Callback :=
| CbSettle                                      (* lines 667-671 *)
| CbShowNextMessage (r : nat)                   (* [showNextMessage] *)
| CbRevealAi (r : nat) (msg : Message)          (* lines 638-644 *)
| CbRevealCustomer (r : nat) (msg : Message).   (* lines 646-651 *)

Record Timer := { tid : nat; due : nat; callback : Callback }.

Definition is_settle (cb : Callback) : bool :=
  match cb with CbSettle => true | _ => false end.

(** The pending timer that runs next: least due time, and among equal due
    times the one registered first (the queue is kept in registration
    order). *)
Fixpoint earliest (ts : list Timer) : option Timer :=
  match ts with
  | [] => None
  | t :: rest =>
      match earliest rest with
      | Some u => if due u <? due t then Some u else Some t
      | None => Some t
      end
  end.

(** Dropping the timer [id] from the queue. *)
Definition remove (id : nat) (ts : list Timer) : list Timer :=
  filter (λ t, tid t ≠ id) ts.

End EventLoop.
Import EventLoop.

(** ** ComparisonSection *)

Module Comparison.

(** The variables of one call of [startChatAnimation] (lines 629-630),
    shared by every closure that call creates. *)
Record RunEnv := { index : nat; isCancelled : bool }.

(** A call of one of the two state setters, kept with the time of the
    call. *)
Inductive Action :=
| ResetMessages                  (* [setVisibleMessages([])] *)
| AppendMessage (msg : Message)  (* [setVisibleMessages((prev) => [...prev, msg])] *)
| SetTypingIndex (i : Z).        (* [setTypingIndex(i)] *)

(** One mounted [ComparisonSection] together with the timer queue.
    [entry] is the hook's [entry] state reduced to its [isIntersecting]
    field; [effectTimeout] is the [timeout] variable captured by the
    cleanup of the effect's latest run; [closures] holds the variables of
    every [startChatAnimation] call so far; [log] records the setter calls
    in the order they were made. *)
Record World := {
  now : nat;
  nextTimerId : nat;
  timers : list Timer;
  closures : list RunEnv;
  mounted : bool;
  entry : option bool;
  visibleMessages : list Message;
  typingIndex : Z;
  hasBeenVisibleRef : bool;
  effectTimeout : option nat;
  log : list (nat * Action)
}.

Definition with_clock (t : nat) (w : World) : World :=
  {| now := t; nextTimerId := nextTimerId w; timers := timers w;
     closures := closures w; mounted := mounted w; entry := entry w;
     visibleMessages := visibleMessages w; typingIndex := typingIndex w;
     hasBeenVisibleRef := hasBeenVisibleRef w;
     effectTimeout := effectTimeout w; log := log w |}.

Definition with_queue (n : nat) (ts : list Timer) (w : World) : World :=
  {| now := now w; nextTimerId := n; timers := ts;
     closures := closures w; mounted := mounted w; entry := entry w;
     visibleMessages := visibleMessages w; typingIndex := typingIndex w;
     hasBeenVisibleRef := hasBeenVisibleRef w;
     effectTimeout := effectTimeout w; log := log w |}.

Definition with_closures (cs : list RunEnv) (w : World) : World :=
  {| now := now w; nextTimerId := nextTimerId w; timers := timers w;
     closures := cs; mounted := mounted w; entry := entry w;
     visibleMessages := visibleMessages w; typingIndex := typingIndex w;
     hasBeenVisibleRef := hasBeenVisibleRef w;
     effectTimeout := effectTimeout w; log := log w |}.

Definition with_mounted (b : bool) (w : World) : World :=
  {| now := now w; nextTimerId := nextTimerId w; timers := timers w;
     closures := closures w; mounted := b; entry := entry w;
     visibleMessages := visibleMessages w; typingIndex := typingIndex w;
     hasBeenVisibleRef := hasBeenVisibleRef w;
     effectTimeout := effectTimeout w; log := log w |}.

Definition with_entry (e : option bool) (w : World) : World :=
  {| now := now w; nextTimerId := nextTimerId w; timers := timers w;
     closures := closures w; mounted := mounted w; entry := e;
     visibleMessages := visibleMessages w; typingIndex := typingIndex w;
     hasBeenVisibleRef := hasBeenVisibleRef w;
     effectTimeout := effectTimeout w; log := log w |}.

Definition with_ref (b : bool) (w : World) : World :=
  {| now := now w; nextTimerId := nextTimerId w; timers := timers w;
     closures := closures w; mounted := mounted w; entry := entry w;
     visibleMessages := visibleMessages w; typingIndex := typingIndex w;
     hasBeenVisibleRef := b;
     effectTimeout := effectTimeout w; log := log w |}.

Definition with_effectTimeout (t : option nat) (w : World) : World :=
  {| now := now w; nextTimerId := nextTimerId w; timers := timers w;
     closures := closures w; mounted := mounted w; entry := entry w;
     visibleMessages := visibleMessages w; typingIndex := typingIndex w;
     hasBeenVisibleRef := hasBeenVisibleRef w;
     effectTimeout := t; log := log w |}.

(** A setter call: always recorded; React applies it to the state of a
    mounted instance and drops it for an unmounted one. *)
Definition dispatch (a : Action) (w : World) : World :=
  let vm :=
    match a with
    | ResetMessages => []
    | AppendMessage msg => visibleMessages w ++ [msg]
    | SetTypingIndex _ => visibleMessages w
    end in
  let ti :=
    match a with
    | SetTypingIndex i => i
    | _ => typingIndex w
    end in
  {| now := now w; nextTimerId := nextTimerId w; timers := timers w;
     closures := closures w; mounted := mounted w; entry := entry w;
     visibleMessages := if mounted w then vm else visibleMessages w;
     typingIndex := if mounted w then ti else typingIndex w;
     hasBeenVisibleRef := hasBeenVisibleRef w;
     effectTimeout := effectTimeout w;
     log := log w ++ [(now w, a)] |}.

Definition setVisibleMessages_empty : World → World := dispatch ResetMessages.
Definition setVisibleMessages_append (msg : Message) : World → World :=
  dispatch (AppendMessage msg).
Definition setTypingIndex (i : Z) : World → World := dispatch (SetTypingIndex i).

(** [setTimeout(cb, delay)]: the new timer's id and the new world. *)
Definition setTimeout (cb : Callback) (delay : nat) (w : World) : nat * World :=
  let id := nextTimerId w in
  (id, with_queue (S id)
         (timers w ++ [{| tid := id; due := now w + delay; callback := cb |}]) w).

(** [clearTimeout(t)], where [t] may be [undefined]. *)
Definition clearTimeout (t : option nat) (w : World) : World :=
  match t with
  | Some id => with_queue (nextTimerId w) (remove id (timers w)) w
  | None => w
  end.

(** [index++] inside the closures of run [r]. *)
Definition incrIndex (r : nat) (w : World) : World :=
  match closures w !! r with
  | Some env =>
      with_closures
        (<[r := {| index := S (index env); isCancelled := isCancelled env |}]>
           (closures w)) w
  | None => w
  end.

(** [entry?.isIntersecting || false], line 617. *)
Definition comparisonVisible (w : World) : bool := default false (entry w).

Section Script.

(** The module-level constant the component reads; the model takes it as
    a parameter and is instantiated with [messages]. *)
Variable script : list Message.

(** [showNextMessage], lines 632-653. *)
Definition showNextMessage (r : nat) (w : World) : World :=
  match closures w !! r with
  | None => w
  | Some env =>
      if isCancelled env || bool_decide (length script ≤ index env) then w
      else
        match script !! index env with
        | None => w
        | Some msg =>
            if is_ai msg then
              let w := setTypingIndex (Z.of_nat (index env)) w in
              (setTimeout (CbRevealAi r msg) 700 w).2
            else (setTimeout (CbRevealCustomer r msg) 500 w).2
        end
  end.

(** The inner callback of the [ai] branch, lines 638-644. *)
Definition revealAi (r : nat) (msg : Message) (w : World) : World :=
  match closures w !! r with
  | None => w
  | Some env =>
      if isCancelled env then w
      else
        let w := setVisibleMessages_append msg w in
        let w := setTypingIndex (-1) w in
        let w := incrIndex r w in
        (setTimeout (CbShowNextMessage r) 700 w).2
  end.

(** The inner callback of the [else] branch, lines 646-651. *)
Definition revealCustomer (r : nat) (msg : Message) (w : World) : World :=
  match closures w !! r with
  | None => w
  | Some env =>
      if isCancelled env then w
      else
        let w := setVisibleMessages_append msg w in
        let w := incrIndex r w in
        (setTimeout (CbShowNextMessage r) 700 w).2
  end.

(** The function [startChatAnimation] returns (lines 657-660): it names
    the run whose [isCancelled] it sets and the [initTimeout] it
    clears. *)
Record Cancel := { cancel_run : nat; cancel_initTimeout : nat }.

Definition runCancel (c : Cancel) (w : World) : World :=
  let w :=
    match closures w !! cancel_run c with
    | Some env =>
        with_closures
          (<[cancel_run c := {| index := index env; isCancelled := true |}]>
             (closures w)) w
    | None => w
    end in
  clearTimeout (Some (cancel_initTimeout c)) w.

(** [startChatAnimation], lines 628-661. *)
Definition startChatAnimation (w : World) : Cancel * World :=
  let r := length (closures w) in
  let w := with_closures (closures w ++ [{| index := 0; isCancelled := false |}]) w in
  let '(initTimeout, w) := setTimeout (CbShowNextMessage r) 300 w in
  ({| cancel_run := r; cancel_initTimeout := initTimeout |}, w).

(** The callback of the settle timer, lines 667-671.  The value of
    [startChatAnimation()] is an expression statement: the cancel
    function is dropped. *)
Definition settle (w : World) : World :=
  let w := setVisibleMessages_empty w in
  let w := setTypingIndex (-1) w in
  (startChatAnimation w).2.

Definition runCallback (cb : Callback) (w : World) : World :=
  match cb with
  | CbSettle => settle w
  | CbShowNextMessage r => showNextMessage r w
  | CbRevealAi r msg => revealAi r msg w
  | CbRevealCustomer r msg => revealCustomer r msg w
  end.

(** The body of the effect on [comparisonVisible], lines 664-674. *)
Definition effectBody (w : World) : World :=
  if comparisonVisible w && negb (hasBeenVisibleRef w) then
    let w := with_ref true w in
    let '(timeout, w) := setTimeout CbSettle 1000 w in
    with_effectTimeout (Some timeout) w
  else if negb (comparisonVisible w) && hasBeenVisibleRef w then
    with_effectTimeout None (with_ref false w)
  else with_effectTimeout None w.

(** Its cleanup, line 675. *)
Definition effectCleanup (w : World) : World :=
  clearTimeout (effectTimeout w) w.

(** The first render and the first run of the effect. *)
Definition mount : World :=
  effectBody
    {| now := 0; nextTimerId := 0; timers := []; closures := [];
       mounted := true; entry := None; visibleMessages := [];
       typingIndex := (-1)%Z; hasBeenVisibleRef := false;
       effectTimeout := None; log := [] |}.

(** What happens to the instance. *)
Inductive Event :=
| Intersect (isIntersecting : bool)  (* the observer delivers an entry *)
| Fire                               (* the next pending timer runs *)
| Wait (ms : nat)                    (* time passes *)
| Unmount.

(** The observer callback [([entry]) => setEntry(entry)] and the render
    it causes: the effect runs again (cleanup first) when
    [comparisonVisible] differs from the previous render.  An unmounted
    instance has no observed node left (React calls the ref callback
    with [null]). *)
Definition intersect (b : bool) (w : World) : World :=
  if mounted w then
    let before := comparisonVisible w in
    let w := with_entry (Some b) w in
    if bool_decide (comparisonVisible w = before) then w
    else effectBody (effectCleanup w)
  else w.

(** The next pending timer runs, at its due time. *)
Definition fire (w : World) : World :=
  match earliest (timers w) with
  | None => w
  | Some t =>
      runCallback (callback t)
        (with_clock (Nat.max (now w) (due t))
           (with_queue (nextTimerId w) (remove (tid t) (timers w)) w))
  end.

(** Time passes, but not beyond the next due timer: the event loop runs
    that one first. *)
Definition wait (ms : nat) (w : World) : World :=
  match earliest (timers w) with
  | None => with_clock (now w + ms) w
  | Some t => with_clock (Nat.min (now w + ms) (Nat.max (now w) (due t))) w
  end.

Definition unmount (w : World) : World :=
  if mounted w then with_mounted false (effectCleanup w) else w.

Definition step (w : World) (e : Event) : World :=
  match e with
  | Intersect b => intersect b w
  | Fire => fire w
  | Wait ms => wait ms w
  | Unmount => unmount w
  end.

Definition run (evs : list Event) (w : World) : World := fold_left step evs w.

(** The number of times [startChatAnimation] has been called. *)
Definition activations (w : World) : nat := length (closures w).

(** [Fire], [k] times. *)
Definition fires (k : nat) (w : World) : World := Nat.iter k fire w.

End Script.

End Comparison.

(** ** useIntersectionObserver, the one-shot hook (App.js:7-35) *)

Module Visibility.

(** One instance of the hook.  [targetBound] says that [targetRef.current]
    holds an element; [observing] says that the observer created by the
    effect's latest run still watches it.  Observers of earlier runs watch
    nothing: the cleanup of their run called [unobserve]. *)
Record Hook := {
  isVisible : bool;
  targetBound : bool;
  observing : bool;
  mounted : bool
}.

(** The effect body, lines 12-25: a new observer, which watches the target
    when there is one. *)
Definition effectBody (h : Hook) : Hook :=
  {| isVisible := isVisible h; targetBound := targetBound h;
     observing := targetBound h; mounted := mounted h |}.

(** The cleanup, lines 27-31: [observer.unobserve(currentTarget)]. *)
Definition effectCleanup (h : Hook) : Hook :=
  {| isVisible := isVisible h; targetBound := targetBound h;
     observing := false; mounted := mounted h |}.

(** The first render, [useState(false)], and the first run of the
    effect. *)
Definition mount (bound : bool) : Hook :=
  effectBody
    {| isVisible := false; targetBound := bound; observing := false;
       mounted := true |}.

(** The body of [entries.forEach], lines 14-18, for one entry given by its
    [isIntersecting] field. *)
Definition onEntry (h : Hook) (isIntersecting : bool) : Hook :=
  if isIntersecting then
    {| isVisible := true; targetBound := targetBound h;
       observing := false; mounted := mounted h |}
  else h.

Inductive Event :=
| Deliver (entries : list bool)   (* the observer reports entries *)
| Render (optionsChanged : bool)  (* the owner renders again *)
| Unmount.

Definition step (h : Hook) (e : Event) : Hook :=
  match e with
  | Deliver entries =>
      if mounted h && observing h then fold_left onEntry entries h else h
  | Render optionsChanged =>
      if mounted h && optionsChanged then effectBody (effectCleanup h) else h
  | Unmount =>
      if mounted h then
        {| isVisible := isVisible h; targetBound := targetBound h;
           observing := false; mounted := false |}
      else h
  end.

Definition run (evs : list Event) (h : Hook) : Hook := fold_left step evs h.

(** The values [isVisible] takes: at the start and after each event. *)
Fixpoint visibleTrace (h : Hook) (evs : list Event) : list bool :=
  isVisible h ::
  match evs with
  | [] => []
  | e :: evs' => visibleTrace (step h e) evs'
  end.

End Visibility.

(** Changes of a boolean over time. *)
Fixpoint rises (bs : list bool) : nat :=
  match bs with
  | b :: (c :: _) as rest => (if negb b && c then 1 else 0) + rises rest
  | _ => 0
  end.

Fixpoint falls (bs : list bool) : nat :=
  match bs with
  | b :: (c :: _) as rest => (if b && negb c then 1 else 0) + falls rest
  | _ => 0
  end.

(** ** App: the theme flag (App.js:38-71) *)

Module Theme.

Inductive StorageOp :=
| GetItem (key : string)
| SetItem (key value : string).

Definition is_read (op : StorageOp) : bool :=
  match op with GetItem _ => true | SetItem _ _ => false end.

(** [localStorage], whether [document.documentElement.classList] holds
    ['dark'], the [isDarkMode] state, and the storage calls made so far. *)
Record App := {
  isDarkMode : bool;
  localStorage : gmap string string;
  darkClass : bool;
  ops : list StorageOp
}.

(** The initialiser of [useState], lines 40-43. *)
Definition init (stored : gmap string string) (cls : bool) : App :=
  let savedMode := stored !! "theme" in
  {| isDarkMode := bool_decide (savedMode = Some "dark");
     localStorage := stored; darkClass := cls;
     ops := [GetItem "theme"] |}.

(** The effect on [isDarkMode], lines 58-66. *)
Definition themeEffect (a : App) : App :=
  if isDarkMode a then
    {| isDarkMode := isDarkMode a;
       localStorage := <["theme" := "dark"]> (localStorage a);
       darkClass := true;
       ops := ops a ++ [SetItem "theme" "dark"] |}
  else
    {| isDarkMode := isDarkMode a;
       localStorage := <["theme" := "light"]> (localStorage a);
       darkClass := false;
       ops := ops a ++ [SetItem "theme" "light"] |}.

(** The first render followed by the first run of the effect. *)
Definition startup (stored : gmap string string) (cls : bool) : App :=
  themeEffect (init stored cls).

(** [toggleDarkMode], lines 69-71, and the effect run its render causes. *)
Definition toggleDarkMode (a : App) : App :=
  themeEffect
    {| isDarkMode := negb (isDarkMode a); localStorage := localStorage a;
       darkClass := darkClass a; ops := ops a |}.

(** The number of [getItem] calls made so far. *)
Definition reads (a : App) : nat := length (List.filter is_read (ops a)).

End Theme.

(** ** HeroSection: the Contact Us handler (monolithic source, 171-208) *)

Module Hero.

(** The outcome of a [fetch]: a response with its status and whether its
    body parses as JSON, or a rejected promise. *)
Inductive Outcome :=
| Response (status : nat) (jsonBody : bool)
| Rejected.

(** [response.ok] *)
Definition ok (status : nat) : bool := (200 <=? status) && (status <=? 299).

(** The component's state, with the [userEmail] of every request sent. *)
Record State := {
  email : string;
  status : string;
  isLoading : bool;
  showInput : bool;
  requests : list string
}.

Definition setStatus (s : string) (st : State) : State :=
  {| email := email st; status := s; isLoading := isLoading st;
     showInput := showInput st; requests := requests st |}.

Definition setIsLoading (b : bool) (st : State) : State :=
  {| email := email st; status := status st; isLoading := b;
     showInput := showInput st; requests := requests st |}.

Definition setEmail (e : string) (st : State) : State :=
  {| email := e; status := status st; isLoading := isLoading st;
     showInput := showInput st; requests := requests st |}.

Definition setShowInput (b : bool) (st : State) : State :=
  {| email := email st; status := status st; isLoading := isLoading st;
     showInput := b; requests := requests st |}.

Definition fetch (userEmail : string) (st : State) : State :=
  {| email := email st; status := status st; isLoading := isLoading st;
     showInput := showInput st; requests := requests st ++ [userEmail] |}.

(** [handleContactUs], lines 177-208, up to the point where the request
    is sent.  [!email] holds for the empty string only. *)
Definition handleContactUs (st : State) : State :=
  if bool_decide (email st = "") then
    setStatus "Please enter your email address." st
  else
    let st := setIsLoading true st in
    let payload := email st in
    fetch payload st.

(** The [then] / [catch] / [finally] chain, lines 193-207.  When the
    response is not ok and [response.json()] rejects, the [then] callback
    rejects in turn and [catch] runs. *)
Definition settled (o : Outcome) (st : State) : State :=
  let st :=
    match o with
    | Response code jsonBody =>
        if ok code then setEmail "" (setStatus "Message sent successfully!" st)
        else if jsonBody then setStatus "Failed to send message. Please try again." st
        else setStatus "An error occurred. Please try again later." st
    | Rejected => setStatus "An error occurred. Please try again later." st
    end in
  setIsLoading false st.

(** The button's [onClick], lines 255-261. *)
Definition onClick (st : State) : State :=
  if negb (showInput st) then setShowInput true st else handleContactUs st.

End Hero.

(** ** App: the lead-capture form (App.js:45-111, 637-766) *)

Module LeadForm.

Record FormData := { name : string; email : string; mobile : string; plan : string }.

(** A pricing plan; the handlers read its [name] only. *)
Record Plan := { plan_name : string }.

(** The JSON body of the request, lines 89-94. *)
Record Body := {
  body_userEmail : string;
  body_name : string;
  body_mobile : string;
  body_plan : string
}.

Inductive Outcome :=
| Response (status : nat)
| Rejected.

Definition ok (status : nat) : bool := (200 <=? status) && (status <=? 299).

(** Whether the request counts as failed: any status outside 2xx, or a
    transport error. *)
Definition failed (o : Outcome) : bool :=
  match o with Response code => negb (ok code) | Rejected => true end.

(** The state of [App] that the form uses, the requests sent so far and
    the number of them not yet settled. *)
Record App := {
  isModalOpen : bool;
  selectedPlan : option Plan;
  formData : FormData;
  isSubmitting : bool;
  submitSuccess : string;
  requests : list Body;
  inFlight : nat
}.

Definition emptyForm : FormData :=
  {| name := ""; email := ""; mobile := ""; plan := "" |}.

(** The initial [useState] values, lines 46-55. *)
Definition initial : App :=
  {| isModalOpen := false; selectedPlan := None; formData := emptyForm;
     isSubmitting := false; submitSuccess := ""; requests := []; inFlight := 0 |}.

Definition setIsModalOpen (b : bool) (a : App) : App :=
  {| isModalOpen := b; selectedPlan := selectedPlan a; formData := formData a;
     isSubmitting := isSubmitting a; submitSuccess := submitSuccess a;
     requests := requests a; inFlight := inFlight a |}.

Definition setSelectedPlan (p : option Plan) (a : App) : App :=
  {| isModalOpen := isModalOpen a; selectedPlan := p; formData := formData a;
     isSubmitting := isSubmitting a; submitSuccess := submitSuccess a;
     requests := requests a; inFlight := inFlight a |}.

Definition setFormData (f : FormData → FormData) (a : App) : App :=
  {| isModalOpen := isModalOpen a; selectedPlan := selectedPlan a;
     formData := f (formData a);
     isSubmitting := isSubmitting a; submitSuccess := submitSuccess a;
     requests := requests a; inFlight := inFlight a |}.

Definition setIsSubmitting (b : bool) (a : App) : App :=
  {| isModalOpen := isModalOpen a; selectedPlan := selectedPlan a;
     formData := formData a;
     isSubmitting := b; submitSuccess := submitSuccess a;
     requests := requests a; inFlight := inFlight a |}.

Definition setSubmitSuccess (s : string) (a : App) : App :=
  {| isModalOpen := isModalOpen a; selectedPlan := selectedPlan a;
     formData := formData a;
     isSubmitting := isSubmitting a; submitSuccess := s;
     requests := requests a; inFlight := inFlight a |}.

Definition fetch (b : Body) (a : App) : App :=
  {| isModalOpen := isModalOpen a; selectedPlan := selectedPlan a;
     formData := formData a;
     isSubmitting := isSubmitting a; submitSuccess := submitSuccess a;
     requests := requests a ++ [b]; inFlight := S (inFlight a) |}.

(** [handlePlanSelect], lines 74-79. *)
Definition handlePlanSelect (p : Plan) (a : App) : App :=
  let a := setSelectedPlan (Some p) a in
  let a :=
    setFormData
      (λ prev, {| name := name prev; email := email prev;
                  mobile := mobile prev; plan := plan_name p |}) a in
  let a := setIsModalOpen true a in
  setSubmitSuccess "" a.

(** [handleFormSubmit], lines 82-95: the part that runs in the submit
    event. *)
Definition handleFormSubmit (a : App) : App :=
  let a := setIsSubmitting true a in
  let a := setSubmitSuccess "" a in
  fetch {| body_userEmail := email (formData a); body_name := name (formData a);
           body_mobile := mobile (formData a); body_plan := plan (formData a) |} a.

(** The [then] / [catch] / [finally] chain of one request, lines 96-110. *)
Definition settled (o : Outcome) (a : App) : App :=
  let a :=
    match o with
    | Response code =>
        if ok code then
          let a := setSubmitSuccess "Thank you! Your request has been submitted." a in
          let a := setFormData (λ _, emptyForm) a in
          setSelectedPlan None a
        else setSubmitSuccess "Failed to submit. Please try again." a
    | Rejected => setSubmitSuccess "An error occurred. Please try again later." a
    end in
  setIsSubmitting false a.

(** What [PlanSelectionModal] shows in place of its body (lines 665-761):
    the status line when [submitSuccess] is a non-empty string, and the
    form otherwise, whose submit button carries [disabled={isSubmitting}].
    Nothing is shown while [isModalOpen] is false. *)
Inductive ModalBody :=
| StatusLine (s : string)
| Form (submitDisabled : bool).

Definition modalBody (a : App) : option ModalBody :=
  if isModalOpen a then
    Some (if bool_decide (submitSuccess a = "") then Form (isSubmitting a)
          else StatusLine (submitSuccess a))
  else None.

Inductive Field := FName | FEmail | FMobile.

(** The [onChange] handlers of the three inputs, lines 681, 695, 709. *)
Definition onChange (fld : Field) (v : string) (a : App) : App :=
  setFormData
    (λ prev,
       match fld with
       | FName => {| name := v; email := email prev; mobile := mobile prev; plan := plan prev |}
       | FEmail => {| name := name prev; email := v; mobile := mobile prev; plan := plan prev |}
       | FMobile => {| name := name prev; email := email prev; mobile := v; plan := plan prev |}
       end) a.

(** What the user does. *)
Inductive UserEvent :=
| ClickSubmit                         (* activates the submit button *)
| Type_ (fld : Field) (v : string)    (* edits an input *)
| ClickPlan (p : Plan)                (* a plan button of the pricing section *)
| ClickClose                          (* the cross or Cancel: [onClose] *)
| ClickBackdrop.                      (* [handleBackdropClick], lines 641-645 *)

Section Browser.

(** The browser's own syntax check of the value of a [type='email'] input.
    It is the platform's, not code of the page, and the model takes it as a
    parameter. *)
Variable validEmail : string → bool.

(** The constraint validation the browser runs before it fires the submit
    event, lines 677-715: the name, e-mail and mobile inputs carry
    [required], and the e-mail input has [type='email'].  The plan input is
    read-only and not required. *)
Definition valid (f : FormData) : bool :=
  negb (bool_decide (name f = "")) &&
  negb (bool_decide (email f = "")) && validEmail (email f) &&
  negb (bool_decide (mobile f = "")).

(** A user event reaches a handler only through an element that is on the
    page; a disabled submit button does not submit the form, and neither
    does a form that fails the constraint validation. *)
Definition user (a : App) (e : UserEvent) : App :=
  match e with
  | ClickSubmit =>
      match modalBody a with
      | Some (Form false) => if valid (formData a) then handleFormSubmit a else a
      | _ => a
      end
  | Type_ fld v =>
      match modalBody a with
      | Some (Form _) => onChange fld v a
      | _ => a
      end
  | ClickPlan p => handlePlanSelect p a
  | ClickClose => if isModalOpen a then setIsModalOpen false a else a
  | ClickBackdrop =>
      if isModalOpen a && negb (isSubmitting a) then setIsModalOpen false a else a
  end.

Definition users (evs : list UserEvent) (a : App) : App := fold_left user evs a.

End Browser.

(** A pending request settles. *)
Definition settle (o : Outcome) (a : App) : App :=
  match inFlight a with
  | 0 => a
  | S n =>
      settled o
        {| isModalOpen := isModalOpen a; selectedPlan := selectedPlan a;
           formData := formData a; isSubmitting := isSubmitting a;
           submitSuccess := submitSuccess a; requests := requests a;
           inFlight := n |}
  end.

(** The status line a failed request leaves. *)
Definition failureStatus (o : Outcome) : string :=
  match o with
  | Response _ => "Failed to submit. Please try again."
  | Rejected => "An error occurred. Please try again later."
  end.

End LeadForm.

(** ** Vocabulary of the playback properties *)

Module Playback.
Import Comparison.

(** The timed steps as the specification words them, from the moment [t]
    at which the sequencer arrives at position [i] of the script: an agent
    line shows the typing indicator for 700 ms, is appended with the
    indicator cleared, and 700 ms later the next position is reached; a
    customer line is appended after 500 ms, and 700 ms later the next
    position is reached. *)
Fixpoint schedule (t i : nat) (msgs : list Message) : list (nat * Action) :=
  match msgs with
  | [] => []
  | msg :: rest =>
      if is_ai msg then
        (t, SetTypingIndex (Z.of_nat i)) ::
        (t + 700, AppendMessage msg) ::
        (t + 700, SetTypingIndex (-1)) ::
        schedule (t + 700 + 700) (S i) rest
      else
        (t + 500, AppendMessage msg) ::
        schedule (t + 500 + 700) (S i) rest
  end.

(** The instance is mounted, becomes visible at time [t0] and stays so
    until the settle timer has run. *)
Definition activatedAt (script : list Message) (t0 : nat) : World :=
  run script [Wait t0; Intersect true; Fire] mount.

(** The state of a single run of the chat: one set of closure variables,
    the queue [tm], position [i], the messages [vis] on show, typing
    index [ty], setter calls [lg]. *)
Definition playing (t nid : nat) (tm : list Timer) (i : nat)
    (vis : list Message) (ty : Z) (lg : list (nat * Action)) : World :=
  {| now := t; nextTimerId := nid; timers := tm;
     closures := [{| index := i; isCancelled := false |}];
     mounted := true; entry := Some true; visibleMessages := vis;
     typingIndex := ty; hasBeenVisibleRef := true;
     effectTimeout := Some 0; log := lg |}.


(** False-to-true changes of the host's visibility in a sequence of
    events, given the visibility [vis] before it; nothing counts once the
    host is unmounted. *)
Fixpoint risingEdges (vis : bool) (evs : list Event) : nat :=
  match evs with
  | [] => 0
  | Intersect b :: evs' => (if negb vis && b then 1 else 0) + risingEdges b evs'
  | Unmount :: _ => 0
  | _ :: evs' => risingEdges vis evs'
  end.

(** The values [comparisonVisible] takes: at the start and after each
    event. *)
Fixpoint visibleTrace (script : list Message) (w : World) (evs : list Event)
    : list bool :=
  comparisonVisible w ::
  match evs with
  | [] => []
  | e :: evs' => visibleTrace script (step script w e) evs'
  end.

(** The typing indicator is on show: [typingIndex !== -1], line 712. *)
Definition typing (w : World) : Prop := typingIndex w ≠ (-1)%Z.

(** The invariant in its strongest reading: the messages on show are a
    proper prefix of the script; the typing index, when set, is their
    number and points at an agent line; and it is set exactly when the
    next line to show is an agent line. *)
Definition strongInvariant (script : list Message) (w : World) : Prop :=
  visibleMessages w `prefix_of` script ∧ visibleMessages w ≠ script ∧
  (typing w →
     typingIndex w = Z.of_nat (length (visibleMessages w)) ∧
     ∃ msg, script !! length (visibleMessages w) = Some msg ∧ is_ai msg = true) ∧
  (typing w ↔
     ∃ msg, script !! length (visibleMessages w) = Some msg ∧ is_ai msg = true).

(** The settle timers in the queue. *)
Definition pendingSettle (w : World) : nat :=
  length (filter (λ t, is_settle (callback t) = true) (timers w)).

(** The settle timers and the runs started, together. *)
Definition potential (w : World) : nat := activations w + pendingSettle w.

(** What an event may add to [potential]: one, when it turns the
    visibility of a mounted host from false to true. *)
Definition edge (w : World) (e : Event) : nat :=
  match e with
  | Intersect true => if mounted w && negb (comparisonVisible w) then 1 else 0
  | _ => 0
  end.

(** The setter calls an instance receives after the time [t]. *)
Definition callsAfter (t : nat) (w : World) : list (nat * Action) :=
  filter (λ c, t < c.1) (log w).

End Playback.

(** ** The observer of ComparisonSection's own hook (lines 602-618) *)

Module LocalObserver.

(** The observers the ref callback has created, each with the node it
    watches, if any, and [observer.current] as a position in that list. *)
Record Hook := { observers : list (option nat); current : option nat }.

(** [useRef(null)] *)
Definition initial : Hook := {| observers := []; current := None |}.

(** [observer.current.disconnect()] when there is a current observer. *)
Definition disconnectCurrent (h : Hook) : list (option nat) :=
  match current h with
  | Some i => <[i := None]> (observers h)
  | None => observers h
  end.

(** The ref callback, lines 607-613, called with a node or with [null]. *)
Definition ref (h : Hook) (node : option nat) : Hook :=
  let obs := disconnectCurrent h in
  {| observers := obs ++ [node]; current := Some (length obs) |}.

(** Every observer but the current one watches nothing. *)
Definition tidy (h : Hook) : Prop :=
  ∃ idle last,
    observers h = replicate idle None ++ [last] ∧ current h = Some idle.

(** The nodes that some observer watches. *)
Definition watched (h : Hook) : list nat := omap id (observers h).

End LocalObserver.

(** ** HeroSection as the user drives it *)

Module HeroFlow.
Import Hero.

(** The component with the number of requests not yet settled. *)
Record Flow := { st : State; pending : nat }.

(** The initial [useState] values, lines 172-175. *)
Definition initial : Flow :=
  {| st := {| email := ""; status := ""; isLoading := false;
              showInput := false; requests := [] |};
     pending := 0 |}.

Inductive Event :=
| TypeEmail (v : string)   (* the input's [onChange], line 246 *)
| Click                    (* the Contact Us button, lines 255-261 *)
| Settle (o : Outcome).    (* a pending request settles *)

Definition step (f : Flow) (e : Event) : Flow :=
  match e with
  | TypeEmail v => {| st := setEmail v (st f); pending := pending f |}
  | Click =>
      (* one more request is pending when the click has sent one *)
      {| st := onClick (st f);
         pending := pending f
                    + (length (requests (onClick (st f))) - length (requests (st f))) |}
  | Settle o =>
      match pending f with
      | 0 => f
      | S n => {| st := settled o (st f); pending := n |}
      end
  end.

Definition run (evs : list Event) (f : Flow) : Flow := fold_left step evs f.

End HeroFlow.

(** ** The lead-capture form as the user and the network drive it *)

Module LeadFlow.
Import LeadForm.

Inductive Event :=
| User (e : UserEvent)
| Settle (o : Outcome).

Section Browser.

(** The browser's check of the e-mail input, as in [LeadForm]. *)
Variable validEmail : string → bool.

Definition step (a : App) (e : Event) : App :=
  match e with
  | User u => user validEmail a u
  | Settle o => settle o a
  end.

Definition run (evs : list Event) (a : App) : App := fold_left step evs a.

End Browser.

(** The body [handleFormSubmit] sends for the form data [f]. *)
Definition bodyOf (f : FormData) : Body :=
  {| body_userEmail := email f; body_name := name f;
     body_mobile := mobile f; body_plan := plan f |}.

End LeadFlow.

(** ** Vocabulary of the further properties of the chat *)

Module ChatSafety.
Import Comparison.

(** The settle timers in the queue, in registration order. *)
Definition settleTimers (w : World) : list Timer :=
  filter (λ t, is_settle (callback t) = true) (timers w).

(** The settle timers are none, or the one whose id the effect's cleanup
    holds, and then the host is mounted and visible. *)
Definition settleInv (w : World) : Prop :=
  settleTimers w = [] ∨
  ∃ t, settleTimers w = [t] ∧ effectTimeout w = Some (tid t) ∧
       comparisonVisible w = true ∧ mounted w = true.

(** The message a reveal callback carries comes from the script. *)
Definition callbackFrom (script : list Message) (cb : Callback) : Prop :=
  match cb with
  | CbRevealAi _ msg | CbRevealCustomer _ msg => msg ∈ script
  | _ => True
  end.


(** The typing index is unset or points at an agent line of the script. *)
Definition typingAtAgent (script : list Message) (w : World) : Prop :=
  typingIndex w = (-1)%Z ∨
  ∃ i msg, typingIndex w = Z.of_nat i ∧ script !! i = Some msg ∧ is_ai msg = true.

(** The messages on show, the messages the pending reveal callbacks carry
    and the typing index all come from the script. *)
Definition fromScript (script : list Message) (w : World) : Prop :=
  Forall (λ msg, msg ∈ script) (visibleMessages w) ∧
  Forall (λ t, callbackFrom script (callback t)) (timers w) ∧
  typingAtAgent script w.

End ChatSafety.

(** ** Vocabulary of a run of the chat started at any state *)

Module AnyRun.
Import Comparison.

(** The state of the run that an activation at the state [base] starts: the
    closure variables of the new run come after those of the runs before
    it; the queue is [tm], the position [i], the messages on show [vis],
    the typing index [ty], the setter calls [lg]. *)
Definition playingOn (base : World) (t nid : nat) (tm : list Timer) (i : nat)
    (vis : list Message) (ty : Z) (lg : list (nat * Action)) : World :=
  {| now := t; nextTimerId := nid; timers := tm;
     closures := closures base ++ [{| index := i; isCancelled := false |}];
     mounted := true; entry := entry base; visibleMessages := vis;
     typingIndex := ty; hasBeenVisibleRef := hasBeenVisibleRef base;
     effectTimeout := effectTimeout base; log := lg |}.

(** The four shapes such a run passes through. *)
Inductive PhaseOn (script : list Message) (base : World) : World → Prop :=
| PhaseOnGap t nid id d i lg :
    t ≤ d → i ≤ length script →
    PhaseOn script base
      (playingOn base t nid
         [{| tid := id; due := d;
             callback := CbShowNextMessage (length (closures base)) |}]
         i (take i script) (-1) lg)
| PhaseOnTyping t nid id d i msg lg :
    t ≤ d → script !! i = Some msg → is_ai msg = true →
    PhaseOn script base
      (playingOn base t nid
         [{| tid := id; due := d;
             callback := CbRevealAi (length (closures base)) msg |}]
         i (take i script) (Z.of_nat i) lg)
| PhaseOnCustomer t nid id d i msg lg :
    t ≤ d → script !! i = Some msg → is_ai msg = false →
    PhaseOn script base
      (playingOn base t nid
         [{| tid := id; due := d;
             callback := CbRevealCustomer (length (closures base)) msg |}]
         i (take i script) (-1) lg)
| PhaseOnDone t nid lg :
    PhaseOn script base (playingOn base t nid [] (length script) script (-1) lg).

(** What a setter call does to the messages on show and to the typing
    index, in the specification's terms: the list is emptied, a message is
    put at its end, the index is set. *)
Definition applyCall (st : list Message * Z) (a : Action) : list Message * Z :=
  match a with
  | ResetMessages => ([], st.2)
  | AppendMessage msg => (st.1 ++ [msg], st.2)
  | SetTypingIndex i => (st.1, i)
  end.


(** The queue is in order: no pending timer is overdue, and the ids of the
    pending timers are distinct and below the next id. *)
Definition wellTimed (w : World) : Prop :=
  Forall (λ t, now w ≤ due t) (timers w) ∧
  NoDup (tid <$> timers w) ∧
  Forall (λ t, tid t < nextTimerId w) (timers w).

(** How much time the timers of [ts] leave before the moment [T], summed:
    it bounds the number of timers that can still run up to [T]. *)
Definition slack (T : nat) (ts : list Timer) : nat :=
  sum_list_with (λ t, T + 1 - due t) ts.



(** Nothing happens to the instance but timers running and time passing. *)
Definition leftAlone (evs : list Event) : Prop :=
  Forall (λ e, match e with Fire | Wait _ => True | _ => False end) evs.

(** The host has come into view and the chat has played to its end; then
    the host has left the viewport and has entered it again, so that the
    settle timer of the replay is pending. *)
Definition revisited (script : list Message) : World :=
  run script
    ([Intersect true] ++ replicate (2 * length script + 2) Fire ++
     [Intersect false; Intersect true])
    mount.

(** The host leaves the viewport in the middle of the second line and
    enters it again at once: the first run goes on while the replay
    starts. *)
Definition overlapped (script : list Message) : World :=
  run script
    [Intersect true; Fire; Fire; Fire; Intersect false; Intersect true;
     Fire; Fire; Fire; Fire]
    mount.

End AnyRun.

(** An event that cannot make a hook visible: anything but a delivery with
    an entry that intersects. *)
Definition quiet (e : Visibility.Event) : Prop :=
  match e with
  | Visibility.Deliver es => Forall (λ b, b = false) es
  | _ => True
  end.

(** What [localStorage] holds after the effect has run: the theme of the
    current mode, and the class on the document agrees with the mode. *)
Definition settledTheme (a : Theme.App) : Prop :=
  Theme.localStorage a !! "theme"
  = Some (if Theme.isDarkMode a then "dark" else "light") ∧
  Theme.darkClass a = Theme.isDarkMode a.

Import EventLoop Comparison Playback.

(** Unfolding the primitive operations on a [World]. *)
Ltac unfold_world :=
  unfold settle, startChatAnimation, showNextMessage, revealAi, revealCustomer,
    setVisibleMessages_empty, setVisibleMessages_append, setTypingIndex,
    incrIndex, dispatch, setTimeout, clearTimeout, effectBody, effectCleanup,
    with_queue, with_clock, with_closures, with_entry, with_ref,
    with_effectTimeout, with_mounted in *.

(** ** A single run of the chat *)

Section SingleRun.
Variable script : list Message.

Lemma remove_single id d cb :
  remove id [{| tid := id; due := d; callback := cb |}] = [].
Proof.
  unfold remove. rewrite filter_cons, filter_nil. simpl.
  destruct (decide (id ≠ id)); [congruence | reflexivity].
Qed.


Lemma fire_idle t nid i vis ty lg :
  fire script (playing t nid [] i vis ty lg) = playing t nid [] i vis ty lg.
Proof. reflexivity. Qed.






Lemma fires_succ k w : fires script (S k) w = fires script k (fire script w).
Proof. unfold fires. apply Nat.iter_succ_r. Qed.

Lemma fires_add j k w : fires script (j + k) w = fires script k (fires script j w).
Proof.
  revert w. induction j as [|j IH]; intros w; [reflexivity|].
  change (S j + k) with (S (j + k)). rewrite !fires_succ. apply IH.
Qed.

Lemma fires_idle k t nid i vis ty lg :
  fires script k (playing t nid [] i vis ty lg) = playing t nid [] i vis ty lg.
Proof.
  induction k as [|k IH]; [reflexivity|]. rewrite fires_succ, fire_idle. exact IH.
Qed.





End SingleRun.

(** The run on [messages], activated at time 0: the times of the setter
    calls. *)
Example messages_call_times :
  map (λ c, N.of_nat c.1) (log (fires messages 15 (activatedAt messages 0)))
  = [1000; 1000; 1300; 2000; 2000; 3200; 3900; 4600; 4600; 5800; 6500; 7200;
     7200; 8400; 9100; 9800; 9800]%N.
Proof. vm_compute. reflexivity. Qed.

(** ** Activation of the chat *)

Section Activation.
Variable script : list Message.

Lemma earliest_elem ts t : earliest ts = Some t → t ∈ ts.
Proof.
  revert t. induction ts as [|u ts IH]; intros t; cbn [earliest]; [discriminate|].
  destruct (earliest ts) as [v|].
  - destruct (due v <? due u); intros Heq; simplify_eq.
    + apply list_elem_of_further, IH. reflexivity.
    + apply list_elem_of_here.
  - intros Heq. simplify_eq. apply list_elem_of_here.
Qed.

Lemma settle_count_remove id ts :
  length (filter (λ t, is_settle (callback t) = true) (remove id ts))
  ≤ length (filter (λ t, is_settle (callback t) = true) ts).
Proof.
  unfold remove. induction ts as [|u ts IH]; [reflexivity|].
  rewrite !filter_cons.
  destruct (decide (tid u ≠ id)); [rewrite filter_cons|];
    destruct (decide (is_settle (callback u) = true)); cbn; lia.
Qed.

Lemma settle_count_remove_settle t ts :
  t ∈ ts → is_settle (callback t) = true →
  S (length (filter (λ t, is_settle (callback t) = true) (remove (tid t) ts)))
  ≤ length (filter (λ t, is_settle (callback t) = true) ts).
Proof.
  intros Hin Hset. induction ts as [|u ts IH]; [inversion Hin|].
  pose proof (settle_count_remove (tid t) ts) as Hle.
  unfold remove in *. rewrite !filter_cons.
  apply elem_of_cons in Hin as [<- | Hin].
  - destruct (decide (tid t ≠ tid t)); [congruence|].
    destruct (decide (is_settle (callback t) = true)); [cbn; lia | congruence].
  - specialize (IH Hin).
    destruct (decide (tid u ≠ tid t)); [rewrite filter_cons|];
      destruct (decide (is_settle (callback u) = true)); cbn; lia.
Qed.

Lemma settle_count_app ts t :
  length (filter (λ t, is_settle (callback t) = true) (ts ++ [t]))
  = length (filter (λ t, is_settle (callback t) = true) ts)
    + (if is_settle (callback t) then 1 else 0).
Proof.
  rewrite list.filter_app, length_app, filter_cons, filter_nil.
  destruct (decide (is_settle (callback t) = true)) as [->|Hn]; [reflexivity|].
  destruct (is_settle (callback t)); [congruence | reflexivity].
Qed.

(** A callback leaves [mounted] and [entry] alone, starts a run only when
    it is the settle callback, and never registers a settle timer. *)
Lemma runCallback_frame cb w :
  mounted (runCallback script cb w) = mounted w ∧
  entry (runCallback script cb w) = entry w ∧
  activations (runCallback script cb w)
    = activations w + (if is_settle cb then 1 else 0) ∧
  pendingSettle (runCallback script cb w) = pendingSettle w.
Proof.
  unfold activations, pendingSettle.
  destruct cb as [|r|r msg|r msg]; cbn [runCallback is_settle]; unfold_world;
    repeat case_match; cbn;
    rewrite ?settle_count_app, ?length_app, ?length_insert; cbn;
    repeat split; try lia; cbn in *; congruence.
Qed.

Lemma fire_potential w : potential (fire script w) ≤ potential w.
Proof.
  unfold fire. destruct (earliest (timers w)) as [t|] eqn:Hearly; [|reflexivity].
  apply earliest_elem in Hearly.
  set (w' := with_clock _ _).
  destruct (runCallback_frame (callback t) w') as (_ & _ & Hact & Hpend).
  unfold potential. rewrite Hact, Hpend.
  assert (activations w' = activations w) as -> by reflexivity.
  unfold pendingSettle. cbn [w' timers with_clock with_queue].
  destruct (is_settle (callback t)) eqn:Hset.
  - pose proof (settle_count_remove_settle t (timers w) Hearly Hset). lia.
  - pose proof (settle_count_remove (tid t) (timers w)). lia.
Qed.

Lemma effectCleanup_potential w :
  potential (effectCleanup w) ≤ potential w ∧
  entry (effectCleanup w) = entry w ∧ mounted (effectCleanup w) = mounted w.
Proof.
  unfold effectCleanup, clearTimeout, potential, activations, pendingSettle.
  destruct (effectTimeout w) as [id|]; cbn; [|repeat split; lia].
  pose proof (settle_count_remove id (timers w)). repeat split; lia.
Qed.

Lemma effectBody_potential w :
  potential (effectBody w)
  ≤ potential w + (if comparisonVisible w then 1 else 0).
Proof.
  unfold effectBody, potential, activations, pendingSettle.
  destruct (comparisonVisible w), (hasBeenVisibleRef w); cbn;
    rewrite ?settle_count_app; cbn; lia.
Qed.

Lemma effectBody_frame w :
  mounted (effectBody w) = mounted w ∧ entry (effectBody w) = entry w.
Proof.
  unfold effectBody.
  destruct (comparisonVisible w), (hasBeenVisibleRef w); cbn; split; reflexivity.
Qed.

Lemma step_potential w e : potential (step script w e) ≤ potential w + edge w e.
Proof.
  destruct e as [b| |ms|]; cbn [step edge].
  - unfold intersect. destruct (mounted w) eqn:Hm; [|destruct b; cbn; lia].
    set (w1 := with_entry (Some b) w).
    assert (Hcv1 : comparisonVisible w1 = b) by reflexivity.
    assert (Hp1 : potential w1 = potential w) by reflexivity.
    rewrite Hcv1. case_bool_decide as Hcv; [rewrite Hp1; destruct b; lia|].
    destruct (effectCleanup_potential w1) as (Hclean & Hentry & _).
    pose proof (effectBody_potential (effectCleanup w1)) as Hbody.
    assert (Hcv2 : comparisonVisible (effectCleanup w1) = b)
      by (unfold comparisonVisible; rewrite Hentry; reflexivity).
    rewrite Hcv2 in Hbody.
    destruct b, (comparisonVisible w); cbn; try congruence; lia.
  - pose proof (fire_potential w). lia.
  - assert (Hclock : ∀ t, potential (with_clock t w) = potential w)
      by reflexivity.
    unfold wait. destruct (earliest (timers w)); rewrite Hclock; lia.
  - unfold unmount. destruct (mounted w); [|lia].
    destruct (effectCleanup_potential w) as (Hclean & _).
    assert (potential (with_mounted false (effectCleanup w))
            = potential (effectCleanup w)) as -> by reflexivity.
    lia.
Qed.

Lemma fire_frame w :
  mounted (fire script w) = mounted w ∧ entry (fire script w) = entry w.
Proof.
  unfold fire. destruct (earliest (timers w)) as [t|]; [|split; reflexivity].
  destruct (runCallback_frame (callback t)
              (with_clock (Nat.max (now w) (due t))
                 (with_queue (nextTimerId w) (remove (tid t) (timers w)) w)))
    as (-> & -> & _).
  split; reflexivity.
Qed.

Lemma step_mounted w e :
  mounted (step script w e)
  = match e with Unmount => false | _ => mounted w end.
Proof.
  destruct e as [b| |ms|]; cbn [step].
  - unfold intersect. destruct (mounted w) eqn:Hm; [|exact Hm].
    case_bool_decide; [exact Hm|].
    destruct (effectBody_frame (effectCleanup (with_entry (Some b) w))) as (-> & _).
    destruct (effectCleanup_potential (with_entry (Some b) w)) as (_ & _ & ->).
    exact Hm.
  - apply fire_frame.
  - unfold wait. destruct (earliest (timers w)); reflexivity.
  - unfold unmount. destruct (mounted w) eqn:Hm; [reflexivity | exact Hm].
Qed.

Lemma step_visible w e :
  mounted w = true →
  comparisonVisible (step script w e)
  = match e with Intersect b => b | _ => comparisonVisible w end.
Proof.
  intros Hm. destruct e as [b| |ms|]; cbn [step].
  - unfold intersect. rewrite Hm. case_bool_decide; [reflexivity|].
    unfold comparisonVisible.
    destruct (effectBody_frame (effectCleanup (with_entry (Some b) w))) as (_ & ->).
    destruct (effectCleanup_potential (with_entry (Some b) w)) as (_ & -> & _).
    reflexivity.
  - unfold comparisonVisible. destruct (fire_frame w) as (_ & ->). reflexivity.
  - unfold wait. destruct (earliest (timers w)); reflexivity.
  - unfold unmount. rewrite Hm. unfold comparisonVisible.
    destruct (effectCleanup_potential w) as (_ & Hentry & _).
    cbn [with_mounted entry]. rewrite Hentry. reflexivity.
Qed.

Lemma run_potential evs : ∀ w vis,
  (mounted w = true → comparisonVisible w = vis) →
  potential (run script evs w)
  ≤ potential w + (if mounted w then risingEdges vis evs else 0).
Proof.
  induction evs as [|e evs IH]; intros w vis Hvis; cbn [run fold_left].
  - destruct (mounted w); cbn; lia.
  - pose proof (step_potential w e) as Hstep.
    pose proof (step_mounted w e) as Hm'.
    destruct (mounted w) eqn:Hm.
    + specialize (Hvis eq_refl).
      pose proof (step_visible w e Hm) as Hv'.
      destruct e as [b| |ms|]; cbn [risingEdges].
      * specialize (IH (step script w (Intersect b)) b (λ _, Hv')).
        fold (run script evs (step script w (Intersect b))) .
        rewrite Hm' in IH. cbn [edge] in Hstep. rewrite Hm, Hvis in Hstep.
        destruct b, vis; cbn in *; lia.
      * specialize (IH (step script w Fire) vis (λ _, eq_trans Hv' Hvis)).
        fold (run script evs (step script w Fire)).
        rewrite Hm' in IH. cbn [edge] in Hstep. lia.
      * specialize (IH (step script w (Wait ms)) vis (λ _, eq_trans Hv' Hvis)).
        fold (run script evs (step script w (Wait ms))).
        rewrite Hm' in IH. cbn [edge] in Hstep. lia.
      * specialize (IH (step script w Unmount) vis).
        fold (run script evs (step script w Unmount)).
        rewrite Hm' in IH. cbn [edge] in Hstep.
        specialize (IH ltac:(discriminate)). lia.
    + assert (mounted (step script w e) = false) as Hm''
        by (rewrite Hm'; destruct e; reflexivity).
      specialize (IH (step script w e) vis).
      fold (run script evs (step script w e)).
      rewrite Hm'' in IH. specialize (IH ltac:(discriminate)).
      assert (edge w e = 0) by (destruct e as [[]| | |]; cbn; rewrite ?Hm; reflexivity).
      lia.
Qed.

End Activation.

(** C1, as stated, fails: when the host leaves the viewport and enters it
    again, the chat is activated a second time, and with both runs left to
    finish every line of [messages] is on show twice. *)
Lemma replay_after_leaving_view :
  let w := run messages
             [Intersect true; Fire; Intersect false; Intersect true; Fire; Fire]
             mount in
  activations w = 2 ∧
  risingEdges false
    [Intersect true; Fire; Intersect false; Intersect true; Fire; Fire] = 2 ∧
  timers (fires messages 40 w) = [] ∧
  length (visibleMessages (fires messages 40 w)) = 2 * length messages.
Proof. vm_compute. repeat split. Qed.

(** C2, on the code: the host becomes visible, the settle timer starts the
    chat at 1000 ms, and the host unmounts at 1200 ms.  The pending
    [showNextMessage] timer stays in the queue with [isCancelled] false, and
    the chain runs to the end of [messages], calling the setters of the
    unmounted instance 15 times.  The function returned by
    [startChatAnimation] would have stopped it ([runCancel]), and an unmount
    during the settle delay does clear its timer. *)
Theorem unmount_leaves_chat_running :
  let w := run messages [Intersect true; Fire; Wait 200; Unmount] mount in
  mounted w = false ∧ now w = 1200 ∧
  timers w = [{| tid := 1; due := 1300; callback := CbShowNextMessage 0 |}] ∧
  closures w = [{| index := 0; isCancelled := false |}] ∧
  map fst (callsAfter 1200 (fires messages 2 w)) = [1300; 2000; 2000] ∧
  length (callsAfter 1200 (fires messages 40 w)) = 15 ∧
  callsAfter 1200
    (fires messages 40 (runCancel {| cancel_run := 0; cancel_initTimeout := 1 |} w))
  = [] ∧
  timers (run messages [Intersect true; Wait 500; Unmount] mount) = [].
Proof. vm_compute. repeat split. Qed.

(** ** The two visibility hooks *)

Section OneShot.
Import Visibility.

Lemma onEntry_keeps h b : isVisible h = true → isVisible (onEntry h b) = true.
Proof. intros Hv. unfold onEntry. destruct b; [reflexivity | exact Hv]. Qed.

Lemma deliver_keeps entries : ∀ h,
  isVisible h = true → isVisible (fold_left onEntry entries h) = true.
Proof.
  induction entries as [|b entries IH]; intros h Hv; [exact Hv|].
  cbn [fold_left]. apply IH, onEntry_keeps, Hv.
Qed.

(** No event takes [isVisible] back to false. *)
Lemma step_keeps h e :
  Visibility.isVisible h = true → Visibility.isVisible (Visibility.step h e) = true.
Proof.
  intros Hv. destruct e as [entries|changed|]; cbn [Visibility.step].
  - destruct (Visibility.mounted h && observing h); [apply deliver_keeps|]; exact Hv.
  - destruct (Visibility.mounted h && changed); exact Hv.
  - destruct (Visibility.mounted h); exact Hv.
Qed.

Lemma rises_step b c l :
  rises (b :: c :: l) = (if negb b && c then 1 else 0) + rises (c :: l).
Proof. reflexivity. Qed.

Lemma falls_step b c l :
  falls (b :: c :: l) = (if b && negb c then 1 else 0) + falls (c :: l).
Proof. reflexivity. Qed.

Lemma visibleTrace_head h evs :
  ∃ rest, Visibility.visibleTrace h evs = Visibility.isVisible h :: rest.
Proof. destruct evs; eexists; reflexivity. Qed.

Lemma visibleTrace_steady evs : ∀ h,
  Visibility.isVisible h = true →
  rises (Visibility.visibleTrace h evs) = 0 ∧
  falls (Visibility.visibleTrace h evs) = 0.
Proof.
  induction evs as [|e evs IH]; intros h Hv; [split; reflexivity|].
  pose proof (step_keeps h e Hv) as Hv'.
  destruct (IH _ Hv') as (Hr & Hf).
  cbn [Visibility.visibleTrace].
  destruct (visibleTrace_head (Visibility.step h e) evs) as (rest & Hrest).
  rewrite Hrest in Hr, Hf |- *. rewrite Hv' in Hr, Hf |- *.
  rewrite rises_step, falls_step, Hv, Hr, Hf. split; reflexivity.
Qed.

Lemma visibleTrace_one_shot evs : ∀ h,
  rises (Visibility.visibleTrace h evs) ≤ 1 ∧
  falls (Visibility.visibleTrace h evs) = 0.
Proof.
  induction evs as [|e evs IH]; intros h; [split; cbn; lia|].
  destruct (Visibility.isVisible h) eqn:Hv.
  - destruct (visibleTrace_steady (e :: evs) h Hv) as (-> & ->). split; lia.
  - cbn [Visibility.visibleTrace].
    destruct (visibleTrace_head (Visibility.step h e) evs) as (rest & Hrest).
    destruct (Visibility.isVisible (Visibility.step h e)) eqn:Hv'.
    + destruct (visibleTrace_steady evs _ Hv') as (Hr & Hf).
      rewrite Hrest in Hr, Hf |- *.
      rewrite rises_step, falls_step, Hv, Hr, Hf. split; cbn; lia.
    + destruct (IH (Visibility.step h e)) as (Hr & Hf).
      rewrite Hrest in Hr, Hf |- *.
      rewrite rises_step, falls_step, Hv, Hf. cbn [negb andb]. split; lia.
Qed.

End OneShot.

(** C3, amended.  For every instance of the top-level hook, whatever the
    observer delivers and however often the owner renders, [isVisible] goes
    from false to true at most once and never from true to false.  The hook
    local to [ComparisonSection] reports the latest entry instead: after an
    entry delivered to a mounted host, its value is that entry's
    [isIntersecting]. *)
Theorem visibility_one_shot_and_latest_entry :
  (∀ h evs,
     rises (Visibility.visibleTrace h evs) ≤ 1 ∧
     falls (Visibility.visibleTrace h evs) = 0) ∧
  (∀ w b,
     comparisonVisible (intersect b w)
     = if Comparison.mounted w then b else comparisonVisible w).
Proof.
  split.
  - intros h evs. apply visibleTrace_one_shot.
  - intros w b. destruct (Comparison.mounted w) eqn:Hm.
    + apply (step_visible [] w (Intersect b) Hm).
    + unfold intersect. rewrite Hm. reflexivity.
Qed.

(** C3, as stated, fails for the hook local to [ComparisonSection]: over
    three entries its value goes false, true, false, true. *)
Lemma local_hook_follows_viewport :
  Playback.visibleTrace messages mount
    [Intersect true; Intersect false; Intersect true]
  = [false; true; false; true] ∧
  falls [false; true; false; true] = 1 ∧ rises [false; true; false; true] = 2.
Proof. vm_compute. repeat split. Qed.

(** ** The theme flag *)

Section ThemeFlag.
Import Theme.

Lemma themeEffect_stored a :
  localStorage (themeEffect a) !! "theme"
  = Some (if isDarkMode (themeEffect a) then "dark" else "light").
Proof.
  unfold themeEffect. destruct (isDarkMode a) eqn:Hd; cbn; rewrite ?Hd;
    apply lookup_insert_eq.
Qed.

Lemma themeEffect_reads a : reads (themeEffect a) = reads a.
Proof.
  unfold themeEffect, reads.
  destruct (isDarkMode a); cbn [ops]; rewrite List.filter_app, length_app; cbn; lia.
Qed.

Lemma toggles_reads n stored cls :
  reads (Nat.iter n toggleDarkMode (startup stored cls)) = 1.
Proof.
  induction n as [|n IH].
  - change (reads (themeEffect (init stored cls)) = 1).
    rewrite themeEffect_reads. reflexivity.
  - rewrite Nat.iter_succ. unfold toggleDarkMode at 1.
    rewrite themeEffect_reads. exact IH.
Qed.

Lemma toggles_stored n stored cls :
  let a := Nat.iter n toggleDarkMode (startup stored cls) in
  localStorage a !! "theme" = Some (if isDarkMode a then "dark" else "light").
Proof.
  destruct n; [|rewrite Nat.iter_succ]; apply themeEffect_stored.
Qed.

Lemma themeEffect_mode a : isDarkMode (themeEffect a) = isDarkMode a.
Proof. unfold themeEffect. destruct (isDarkMode a) eqn:Hd; cbn; congruence. Qed.

End ThemeFlag.

(** C8.  Starting up reads the stored theme once, and dark mode is on
    exactly when the stored value is ["dark"]; toggling never reads it
    again, flips the flag, and leaves ["dark"] in the store when dark mode
    is on and ["light"] when it is off. *)
Theorem theme_read_once_and_written_on_toggle
    (stored : gmap string string) (cls : bool) (n : nat) :
  let a := Nat.iter n Theme.toggleDarkMode (Theme.startup stored cls) in
  Theme.isDarkMode (Theme.startup stored cls)
    = bool_decide (stored !! "theme" = Some "dark") ∧
  Theme.reads a = 1 ∧
  Theme.isDarkMode (Theme.toggleDarkMode a) = negb (Theme.isDarkMode a) ∧
  Theme.localStorage a !! "theme"
    = Some (if Theme.isDarkMode a then "dark" else "light").
Proof.
  cbv zeta. split; [|split; [|split]].
  - unfold Theme.startup. rewrite themeEffect_mode. reflexivity.
  - apply toggles_reads.
  - unfold Theme.toggleDarkMode. rewrite themeEffect_mode. reflexivity.
  - apply toggles_stored.
Qed.

(** ** The Contact Us handler *)

(** C9.  With an empty e-mail field the handler sets the prompt and does
    nothing else: the state is the old one with the new status, so no
    request is added and [isLoading] keeps its value. *)
Theorem contact_us_empty_email (st : Hero.State) :
  Hero.email st = "" →
  Hero.handleContactUs st = Hero.setStatus "Please enter your email address." st ∧
  Hero.requests (Hero.handleContactUs st) = Hero.requests st ∧
  Hero.isLoading (Hero.handleContactUs st) = Hero.isLoading st.
Proof.
  intros Hemail. unfold Hero.handleContactUs.
  rewrite bool_decide_eq_true_2 by exact Hemail. repeat split.
Qed.

Lemma contact_us_empty_email_witness :
  let st := {| Hero.email := ""; Hero.status := ""; Hero.isLoading := false;
               Hero.showInput := true; Hero.requests := [] |} in
  Hero.handleContactUs st = Hero.setStatus "Please enter your email address." st ∧
  Hero.requests (Hero.handleContactUs st) = Hero.requests st ∧
  Hero.isLoading (Hero.handleContactUs st) = Hero.isLoading st.
Proof.
  exact (contact_us_empty_email
           {| Hero.email := ""; Hero.status := ""; Hero.isLoading := false;
              Hero.showInput := true; Hero.requests := [] |} eq_refl).
Defined.

(** ** The lead-capture form *)

Section Lead.
Import LeadForm.
Variable validEmail : string → bool.

(** While a submission is in progress no user event starts another one or
    ends it. *)
Lemma user_while_submitting a e :
  isSubmitting a = true →
  isSubmitting (user validEmail a e) = true ∧
  requests (user validEmail a e) = requests a ∧
  inFlight (user validEmail a e) = inFlight a.
Proof.
  intros Hs. destruct e as [|fld v|p| |]; cbn [user].
  - unfold modalBody. rewrite Hs.
    destruct (isModalOpen a); [case_bool_decide|]; repeat split; exact Hs.
  - unfold modalBody.
    destruct (isModalOpen a); [case_bool_decide|]; repeat split; exact Hs.
  - repeat split; exact Hs.
  - destruct (isModalOpen a); repeat split; exact Hs.
  - destruct (isModalOpen a && negb (isSubmitting a)); repeat split; exact Hs.
Qed.

Lemma users_while_submitting evs : ∀ a,
  isSubmitting a = true →
  isSubmitting (users validEmail evs a) = true ∧
  requests (users validEmail evs a) = requests a ∧
  inFlight (users validEmail evs a) = inFlight a ∧
  (Forall (λ e, e ≠ ClickClose) evs →
   isModalOpen a = true → isModalOpen (users validEmail evs a) = true).
Proof.
  unfold users.
  induction evs as [|e evs IH]; intros a Hs; [repeat split; [exact Hs | auto]|].
  destruct (user_while_submitting a e Hs) as (Hs' & Hr & Hf).
  destruct (IH (user validEmail a e) Hs') as (Hs'' & Hr' & Hf' & Hopen).
  cbn [fold_left]. repeat split; try congruence.
  intros Hevs Ha. inversion Hevs as [|? ? He Hrest]; subst. apply (Hopen Hrest).
  destruct e as [|fld v|p| |]; cbn [user]; try congruence.
  - destruct (modalBody a) as [[s|[]]|]; try exact Ha.
    destruct (valid validEmail (formData a)); exact Ha.
  - destruct (modalBody a) as [[s|d]|]; exact Ha.
  - reflexivity.
  - rewrite Ha, Hs. exact Ha.
Qed.

Lemma reclicks_while_submitting n : ∀ a,
  isSubmitting a = true → users validEmail (repeat ClickSubmit n) a = a.
Proof.
  unfold users.
  induction n as [|n IH]; intros a Hs; [reflexivity|].
  cbn [repeat fold_left user]. unfold modalBody. rewrite Hs.
  destruct (isModalOpen a); [case_bool_decide|]; apply IH, Hs.
Qed.

Lemma form_shown a :
  modalBody a = Some (Form false) →
  isModalOpen a = true ∧ submitSuccess a = "" ∧ isSubmitting a = false.
Proof.
  unfold modalBody. destruct (isModalOpen a); [|discriminate].
  case_bool_decide as Hs; [|discriminate]. intros [= Hsub]. repeat split; assumption.
Qed.

Lemma settled_failed o a :
  failed o = true →
  settled o a = setIsSubmitting false (setSubmitSuccess (failureStatus o) a).
Proof.
  destruct o as [code|]; unfold failed, settled, failureStatus; [|reflexivity].
  intros Hf. apply negb_true_iff in Hf. rewrite Hf. reflexivity.
Qed.

(** What a failed settle leaves of a state with one more request in flight
    than [a]. *)
Lemma settle_failed o a b :
  failed o = true → inFlight b = S (inFlight a) →
  settle o b
  = setIsSubmitting false
      (setSubmitSuccess (failureStatus o)
         {| isModalOpen := isModalOpen b; selectedPlan := selectedPlan b;
            formData := formData b; isSubmitting := isSubmitting b;
            submitSuccess := submitSuccess b; requests := requests b;
            inFlight := inFlight a |}).
Proof.
  intros Hfail Hb. unfold settle. rewrite Hb. apply settled_failed, Hfail.
Qed.

Lemma settled_ok code a :
  ok code = true →
  settled (Response code) a
  = setIsSubmitting false
      (setSelectedPlan None
         (setFormData (λ _, emptyForm)
            (setSubmitSuccess "Thank you! Your request has been submitted." a))).
Proof. intros Hok. unfold settled. rewrite Hok. reflexivity. Qed.

Lemma failureStatus_shown o : failureStatus o ≠ "".
Proof. destruct o; discriminate. Qed.

End Lead.

(** C7, amended.  A submission happens from a form that is on the page and
    passes the browser's validation, and it sends one request.  Whatever the
    user does before the request settles sends no second one: the submit
    button stays disabled.  When the request then fails, by a status
    outside 2xx or by a transport error, [isSubmitting] is false again and
    the failure status is set; the modal shows it in place of the form when
    the modal is still open at that moment, as it is after any events
    other than a click on the cross or on Cancel. *)
Theorem failed_submission_reports_and_unlocks
    (validEmail : string → bool)
    (a : LeadForm.App) (evs : list LeadForm.UserEvent) (o : LeadForm.Outcome) :
  LeadForm.modalBody a = Some (LeadForm.Form false) →
  LeadForm.valid validEmail (LeadForm.formData a) = true →
  LeadForm.failed o = true →
  let submitted := LeadForm.user validEmail a LeadForm.ClickSubmit in
  let waiting := LeadForm.users validEmail evs submitted in
  let done := LeadForm.settle o waiting in
  LeadForm.requests submitted
    = LeadForm.requests a ++ [LeadFlow.bodyOf (LeadForm.formData a)] ∧
  LeadForm.modalBody submitted = Some (LeadForm.Form true) ∧
  LeadForm.requests waiting = LeadForm.requests submitted ∧
  LeadForm.isSubmitting waiting = true ∧
  LeadForm.requests done = LeadForm.requests submitted ∧
  LeadForm.isSubmitting done = false ∧
  LeadForm.submitSuccess done = LeadForm.failureStatus o ∧
  LeadForm.modalBody done
  = (if LeadForm.isModalOpen waiting
     then Some (LeadForm.StatusLine (LeadForm.failureStatus o)) else None) ∧
  (Forall (λ e, e ≠ LeadForm.ClickClose) evs →
   LeadForm.modalBody done
   = Some (LeadForm.StatusLine (LeadForm.failureStatus o))).
Proof.
  intros Hform Hvalid Hfail. cbv zeta. cbn [LeadForm.user].
  rewrite Hform, Hvalid.
  destruct (form_shown a Hform) as (Hopen & _ & _).
  destruct (users_while_submitting validEmail evs (LeadForm.handleFormSubmit a) eq_refl)
    as (Hsub & Hreq & Hfl & Hstays).
  split; [reflexivity|].
  split; [unfold LeadForm.modalBody; cbn; rewrite Hopen; reflexivity|].
  split; [exact Hreq|]. split; [exact Hsub|].
  rewrite (settle_failed o a _ Hfail Hfl).
  assert (Hshown :
    LeadForm.modalBody
      (LeadForm.setIsSubmitting false
         (LeadForm.setSubmitSuccess (LeadForm.failureStatus o)
            {| LeadForm.isModalOpen :=
                 LeadForm.isModalOpen
                   (LeadForm.users validEmail evs (LeadForm.handleFormSubmit a));
               LeadForm.selectedPlan :=
                 LeadForm.selectedPlan
                   (LeadForm.users validEmail evs (LeadForm.handleFormSubmit a));
               LeadForm.formData :=
                 LeadForm.formData
                   (LeadForm.users validEmail evs (LeadForm.handleFormSubmit a));
               LeadForm.isSubmitting :=
                 LeadForm.isSubmitting
                   (LeadForm.users validEmail evs (LeadForm.handleFormSubmit a));
               LeadForm.submitSuccess :=
                 LeadForm.submitSuccess
                   (LeadForm.users validEmail evs (LeadForm.handleFormSubmit a));
               LeadForm.requests :=
                 LeadForm.requests
                   (LeadForm.users validEmail evs (LeadForm.handleFormSubmit a));
               LeadForm.inFlight := LeadForm.inFlight a |}))
    = (if LeadForm.isModalOpen
            (LeadForm.users validEmail evs (LeadForm.handleFormSubmit a))
       then Some (LeadForm.StatusLine (LeadForm.failureStatus o)) else None)).
  { unfold LeadForm.modalBody. cbn.
    rewrite (bool_decide_eq_false_2 _ (failureStatus_shown o)). reflexivity. }
  split; [exact Hreq|]. split; [reflexivity|]. split; [reflexivity|].
  split; [exact Hshown|].
  intros Hevs. rewrite Hshown, (Hstays Hevs); [reflexivity|]. exact Hopen.
Qed.

Lemma failed_submission_witness :
  let validEmail := λ s : string, bool_decide (s = "ada@example.com") in
  let a :=
    LeadForm.users validEmail
      [LeadForm.ClickPlan {| LeadForm.plan_name := "Growth" |};
       LeadForm.Type_ LeadForm.FName "Ada";
       LeadForm.Type_ LeadForm.FEmail "ada@example.com";
       LeadForm.Type_ LeadForm.FMobile "5551234"]
      LeadForm.initial in
  let waiting :=
    LeadForm.users validEmail
      [LeadForm.ClickSubmit; LeadForm.ClickBackdrop; LeadForm.ClickSubmit]
      (LeadForm.user validEmail a LeadForm.ClickSubmit) in
  LeadForm.requests waiting
  = [{| LeadForm.body_userEmail := "ada@example.com"; LeadForm.body_name := "Ada";
        LeadForm.body_mobile := "5551234"; LeadForm.body_plan := "Growth" |}] ∧
  LeadForm.isSubmitting (LeadForm.settle (LeadForm.Response 500) waiting) = false ∧
  LeadForm.modalBody (LeadForm.settle (LeadForm.Response 500) waiting)
  = Some (LeadForm.StatusLine "Failed to submit. Please try again.").
Proof.
  pose proof (failed_submission_reports_and_unlocks
                (λ s : string, bool_decide (s = "ada@example.com"))
                (LeadForm.users (λ s : string, bool_decide (s = "ada@example.com"))
                   [LeadForm.ClickPlan {| LeadForm.plan_name := "Growth" |};
                    LeadForm.Type_ LeadForm.FName "Ada";
                    LeadForm.Type_ LeadForm.FEmail "ada@example.com";
                    LeadForm.Type_ LeadForm.FMobile "5551234"]
                   LeadForm.initial)
                [LeadForm.ClickSubmit; LeadForm.ClickBackdrop; LeadForm.ClickSubmit]
                (LeadForm.Response 500) eq_refl eq_refl eq_refl)
    as (Hsent & _ & Hsame & _ & _ & Hunlocked & _ & _ & Hshown).
  cbv zeta. split; [|split].
  - rewrite Hsame, Hsent. reflexivity.
  - exact Hunlocked.
  - apply Hshown. repeat constructor; discriminate.
Defined.

(** C7, as stated, fails when the user dismisses the modal while the
    request is pending: the cross and Cancel are not disabled during a
    submission.  The request fails, the status is stored, nothing shows it,
    and the plan button that opens the modal again clears it. *)
Lemma failure_status_hidden_after_close :
  let validEmail := λ s : string, bool_decide (s = "ada@example.com") in
  let a :=
    LeadForm.users validEmail
      [LeadForm.ClickPlan {| LeadForm.plan_name := "Growth" |};
       LeadForm.Type_ LeadForm.FName "Ada";
       LeadForm.Type_ LeadForm.FEmail "ada@example.com";
       LeadForm.Type_ LeadForm.FMobile "5551234"]
      LeadForm.initial in
  let done :=
    LeadForm.settle (LeadForm.Response 500)
      (LeadForm.users validEmail [LeadForm.ClickSubmit; LeadForm.ClickClose] a) in
  length (LeadForm.requests done) = 1 ∧
  LeadForm.submitSuccess done = "Failed to submit. Please try again." ∧
  LeadForm.modalBody done = None ∧
  LeadForm.modalBody
    (LeadForm.user validEmail done
       (LeadForm.ClickPlan {| LeadForm.plan_name := "Growth" |}))
  = Some (LeadForm.Form false).
Proof. vm_compute. repeat split. Qed.

(** C10.  The form data and the selected plan are cleared by a 2xx response
    only.  The submit handler itself leaves them alone, and after a failed
    response or a transport error they are what they were when the request
    settled, edits made in the meantime included. *)
Theorem form_cleared_only_on_success
    (validEmail : string → bool)
    (a : LeadForm.App) (evs : list LeadForm.UserEvent) (o : LeadForm.Outcome) :
  let submitted := LeadForm.handleFormSubmit a in
  let waiting := LeadForm.users validEmail evs submitted in
  let done := LeadForm.settle o waiting in
  LeadForm.formData submitted = LeadForm.formData a ∧
  LeadForm.selectedPlan submitted = LeadForm.selectedPlan a ∧
  if LeadForm.failed o
  then LeadForm.formData done = LeadForm.formData waiting ∧
       LeadForm.selectedPlan done = LeadForm.selectedPlan waiting
  else LeadForm.formData done = LeadForm.emptyForm ∧
       LeadForm.selectedPlan done = None.
Proof.
  cbv zeta.
  destruct (users_while_submitting validEmail evs (LeadForm.handleFormSubmit a) eq_refl)
    as (_ & _ & Hfl & _).
  split; [reflexivity|]. split; [reflexivity|].
  unfold LeadForm.settle. rewrite Hfl.
  cbn [LeadForm.handleFormSubmit LeadForm.fetch LeadForm.inFlight].
  destruct (LeadForm.failed o) eqn:Hfail.
  - rewrite (settled_failed o _ Hfail). split; reflexivity.
  - destruct o as [code|]; [|discriminate].
    cbn [LeadForm.failed] in Hfail. apply negb_false_iff in Hfail.
    rewrite (settled_ok code _ Hfail). split; reflexivity.
Qed.

(** ** Further properties of the chat, for every sequence of events *)

Section ChatInvariants.
Import ChatSafety.
Variable script : list Message.

Lemma runCallback_refs cb w :
  hasBeenVisibleRef (runCallback script cb w) = hasBeenVisibleRef w ∧
  effectTimeout (runCallback script cb w) = effectTimeout w.
Proof.
  destruct cb as [|r|r msg|r msg]; cbn [runCallback]; unfold_world;
    repeat case_match; cbn; split; reflexivity.
Qed.

Lemma fire_refs w :
  hasBeenVisibleRef (fire script w) = hasBeenVisibleRef w ∧
  effectTimeout (fire script w) = effectTimeout w.
Proof.
  unfold fire. destruct (earliest (timers w)) as [t|]; [|split; reflexivity].
  destruct (runCallback_refs (callback t)
              (with_clock (Nat.max (now w) (due t))
                 (with_queue (nextTimerId w) (remove (tid t) (timers w)) w)))
    as (-> & ->).
  split; reflexivity.
Qed.

Lemma step_ref_tracks w e :
  hasBeenVisibleRef w = comparisonVisible w →
  hasBeenVisibleRef (step script w e) = comparisonVisible (step script w e).
Proof.
  intros Hinv. destruct e as [b| |ms|]; cbn [step].
  - unfold intersect. destruct (Comparison.mounted w); [|exact Hinv].
    change (comparisonVisible (with_entry (Some b) w)) with b.
    case_bool_decide as Hcv.
    + change (hasBeenVisibleRef w = b). congruence.
    + unfold comparisonVisible in *. unfold_world.
      destruct (effectTimeout w); cbn; rewrite Hinv;
        destruct b, (default false (entry w)); cbn; congruence.
  - destruct (fire_refs w) as (-> & _). unfold comparisonVisible.
    destruct (fire_frame script w) as (_ & ->). exact Hinv.
  - unfold wait. destruct (earliest (timers w)); exact Hinv.
  - unfold unmount. destruct (Comparison.mounted w); [|exact Hinv].
    unfold effectCleanup, clearTimeout. destruct (effectTimeout w); exact Hinv.
Qed.

(** X1.  [hasBeenVisibleRef.current] is the visibility of the host now, not a
    record of a past visit: after every sequence of events it equals
    [comparisonVisible]. *)
Theorem ref_tracks_visibility (evs : list Event) :
  hasBeenVisibleRef (run script evs mount)
  = comparisonVisible (run script evs mount).
Proof.
  unfold run. rewrite <- (rev_involutive evs).
  induction (rev evs) as [|e evs' IH]; [reflexivity|].
  cbn [rev]. rewrite fold_left_app. cbn [fold_left].
  apply step_ref_tracks, IH.
Qed.


(** *** The settle timer *)

Lemma settleTimers_push cb delay w :
  is_settle cb = false →
  settleTimers (setTimeout cb delay w).2 = settleTimers w.
Proof.
  intros Hcb. unfold settleTimers, setTimeout. cbn.
  rewrite list.filter_app, filter_cons, filter_nil. cbn. rewrite Hcb.
  destruct (decide (false = true)); [discriminate|]. apply app_nil_r.
Qed.

Lemma settleTimers_runCallback cb w :
  settleTimers (runCallback script cb w) = settleTimers w.
Proof.
  unfold settleTimers.
  destruct cb as [|r|r msg|r msg]; cbn [runCallback]; unfold_world;
    repeat case_match; cbn; try reflexivity;
    rewrite list.filter_app, filter_cons, filter_nil; cbn;
    case_decide; try discriminate; apply app_nil_r.
Qed.

Lemma settleTimers_remove id w :
  settleTimers (with_queue (nextTimerId w) (remove id (timers w)) w)
  = remove id (settleTimers w).
Proof.
  unfold settleTimers, remove. cbn. induction (timers w) as [|u ts IH];
    [reflexivity|].
  rewrite !filter_cons.
  destruct (decide (tid u ≠ id)), (decide (is_settle (callback u) = true));
    rewrite ?filter_cons; repeat case_decide; try contradiction;
    rewrite IH; reflexivity.
Qed.

Lemma remove_one id t : remove id [t] = [] ∨ (remove id [t] = [t] ∧ tid t ≠ id).
Proof.
  unfold remove. rewrite filter_cons, filter_nil.
  destruct (decide (tid t ≠ id)); [right; split; [reflexivity | assumption] | left; reflexivity].
Qed.

Lemma effectCleanup_settle w :
  settleTimers w = [] ∨
  (∃ t, settleTimers w = [t] ∧ effectTimeout w = Some (tid t)) →
  settleTimers (effectCleanup w) = [].
Proof.
  unfold effectCleanup, clearTimeout.
  intros [Hnone | (t & Hone & Hid)].
  - destruct (effectTimeout w) as [id|]; [|exact Hnone].
    rewrite settleTimers_remove, Hnone. reflexivity.
  - rewrite Hid, settleTimers_remove, Hone.
    destruct (remove_one (tid t) t) as [-> | (_ & Hne)]; [reflexivity | congruence].
Qed.

Lemma effectBody_settle w :
  settleTimers w = [] → Comparison.mounted w = true → settleInv (effectBody w).
Proof.
  intros Hnone Hm. unfold effectBody.
  destruct (comparisonVisible w && negb (hasBeenVisibleRef w)) eqn:Hgo.
  - right. apply andb_true_iff in Hgo as (Hcv & _).
    exists {| tid := nextTimerId w; due := now w + 1000; callback := CbSettle |}.
    unfold settleTimers in *. cbn. rewrite list.filter_app, Hnone.
    repeat split; assumption.
  - left. destruct (negb (comparisonVisible w) && hasBeenVisibleRef w); exact Hnone.
Qed.

Lemma step_settle w e : settleInv w → settleInv (step script w e).
Proof.
  intros Hinv. destruct e as [b| |ms|]; cbn [step].
  - unfold intersect. destruct (Comparison.mounted w) eqn:Hm; [|exact Hinv].
    change (comparisonVisible (with_entry (Some b) w)) with b.
    case_bool_decide as Hcv.
    + destruct Hinv as [Hnone | (t & Hone & Hid & Hvis & _)];
        [left; exact Hnone | right; exists t; repeat split; try assumption].
      unfold comparisonVisible. cbn. congruence.
    + apply effectBody_settle.
      * apply (effectCleanup_settle (with_entry (Some b) w)).
        destruct Hinv as [Hnone | (t & Hone & Hid & _)];
          [left; exact Hnone | right; exists t; split; assumption].
      * destruct (effectCleanup_potential (with_entry (Some b) w)) as (_ & _ & ->).
        exact Hm.
  - unfold fire. destruct (earliest (timers w)) as [t0|]; [|exact Hinv].
    set (w' := with_clock _ _).
    assert (Hrem : settleTimers w' = remove (tid t0) (settleTimers w))
      by apply settleTimers_remove.
    destruct (runCallback_frame script (callback t0) w') as (Hm & Hentry & _).
    destruct (runCallback_refs (callback t0) w') as (_ & Htimeout).
    unfold settleInv, comparisonVisible.
    rewrite settleTimers_runCallback, Hm, Hentry, Htimeout, Hrem.
    destruct Hinv as [-> | (t & -> & Hid & Hvis & Hmt)]; [left; reflexivity|].
    destruct (remove_one (tid t0) t) as [-> | (-> & _)]; [left; reflexivity|].
    right. exists t. repeat split; assumption.
  - unfold wait. destruct (earliest (timers w)); exact Hinv.
  - unfold unmount. destruct (Comparison.mounted w) eqn:Hm; [|exact Hinv].
    left. apply (effectCleanup_settle w).
    destruct Hinv as [Hnone | (t & Hone & Hid & _)];
      [left; exact Hnone | right; exists t; split; assumption].
Qed.

Lemma run_settle evs : settleInv (run script evs mount).
Proof.
  unfold run. rewrite <- (rev_involutive evs).
  induction (rev evs) as [|e evs' IH]; [left; reflexivity|].
  cbn [rev]. rewrite fold_left_app. cbn [fold_left]. apply step_settle, IH.
Qed.

(** X2.  At most one settle timer is pending, and none unless the host is mounted
    and visible: leaving the viewport or unmounting before the 1000 ms have
    passed takes the timer back. *)
Theorem settle_timer_only_while_visible (evs : list Event) :
  let w := run script evs mount in
  pendingSettle w
  ≤ if Comparison.mounted w && comparisonVisible w then 1 else 0.
Proof.
  cbv zeta. change (pendingSettle (run script evs mount))
    with (length (settleTimers (run script evs mount))).
  destruct (run_settle evs) as [-> | (t & -> & _ & -> & ->)]; cbn; lia.
Qed.

Lemma unmounted_no_activation evs : ∀ w,
  Comparison.mounted w = false → settleTimers w = [] →
  activations (run script evs w) = activations w.
Proof.
  induction evs as [|e evs IH]; intros w Hm Hnone; [reflexivity|].
  cbn [run fold_left]. fold (run script evs (step script w e)).
  assert (Hstep : Comparison.mounted (step script w e) = false ∧
                  settleTimers (step script w e) = [] ∧
                  activations (step script w e) = activations w).
  { destruct e as [b| |ms|]; cbn [step].
    - unfold intersect. rewrite Hm. repeat split; assumption.
    - unfold fire. destruct (earliest (timers w)) as [t0|] eqn:Hearly;
        [|repeat split; assumption].
      set (w' := with_clock _ _).
      destruct (runCallback_frame script (callback t0) w') as (-> & _ & -> & _).
      rewrite settleTimers_runCallback.
      assert (Hrem : settleTimers w' = remove (tid t0) (settleTimers w))
        by apply settleTimers_remove.
      rewrite Hrem, Hnone.
      assert (Hcb : is_settle (callback t0) = false).
      { destruct (is_settle (callback t0)) eqn:Hset; [|reflexivity].
        apply earliest_elem in Hearly.
        assert (t0 ∈ settleTimers w)
          by (apply list_elem_of_filter; split; assumption).
        rewrite Hnone in H. inversion H. }
      rewrite Hcb. repeat split; [exact Hm|]. unfold activations. cbn. lia.
    - unfold wait. destruct (earliest (timers w)); repeat split; assumption.
    - unfold unmount. rewrite Hm. repeat split; assumption. }
  destruct Hstep as (Hm' & Hnone' & Hact).
  rewrite (IH _ Hm' Hnone'). exact Hact.
Qed.

(** X3.  Once the host has unmounted, no run of the chat is started any more:
    the number of [startChatAnimation] calls stays what it was. *)
Theorem no_activation_after_unmount (evs evs' : list Event) :
  activations (run script (evs ++ Unmount :: evs') mount)
  = activations (run script evs mount).
Proof.
  unfold run at 1. rewrite fold_left_app. cbn [fold_left step].
  fold (run script evs mount). fold (run script evs' (unmount (run script evs mount))).
  pose proof (run_settle evs) as Hinv.
  unfold unmount. destruct (Comparison.mounted (run script evs mount)) eqn:Hm.
  - rewrite unmounted_no_activation; [| reflexivity |].
    + unfold effectCleanup, clearTimeout.
      destruct (effectTimeout (run script evs mount)); reflexivity.
    + apply (effectCleanup_settle (run script evs mount)).
      destruct Hinv as [Hnone | (t & Hone & Hid & _)];
        [left; exact Hnone | right; exists t; split; assumption].
  - apply unmounted_no_activation; [exact Hm|].
    destruct Hinv as [Hnone | (t & _ & _ & _ & Hmt)]; [exact Hnone | congruence].
Qed.


(** *** What is put on show *)

Lemma dispatch_fromScript a w :
  fromScript script w →
  match a with
  | ResetMessages => True
  | AppendMessage msg => msg ∈ script
  | SetTypingIndex i =>
      i = (-1)%Z ∨
      ∃ n msg, i = Z.of_nat n ∧ script !! n = Some msg ∧ is_ai msg = true
  end →
  fromScript script (dispatch a w).
Proof.
  intros (Hvis & Htm & Hty) Ha. unfold fromScript, typingAtAgent, dispatch. cbn.
  destruct (Comparison.mounted w); [|repeat split; assumption].
  destruct a as [|msg|i]; repeat split; try assumption.
  - constructor.
  - apply list.Forall_app. split; [assumption | repeat constructor; assumption].
Qed.

Lemma setTimeout_fromScript cb delay w :
  fromScript script w → callbackFrom script cb → fromScript script (setTimeout cb delay w).2.
Proof.
  intros (Hvis & Htm & Hty) Hcb. unfold fromScript, typingAtAgent, setTimeout. cbn.
  repeat split; try assumption.
  apply list.Forall_app. split; [assumption | repeat constructor; assumption].
Qed.

Lemma incrIndex_fromScript r w : fromScript script w → fromScript script (incrIndex r w).
Proof. unfold incrIndex. destruct (closures w !! r); intros H; exact H. Qed.

Lemma runCallback_fromScript cb w :
  fromScript script w → callbackFrom script cb → fromScript script (runCallback script cb w).
Proof.
  intros Hw Hcb. destruct cb as [|r|r msg|r msg]; cbn [runCallback].
  - unfold settle, startChatAnimation, setVisibleMessages_empty, setTypingIndex.
    apply (setTimeout_fromScript _ _ (with_closures _ _)); [|exact I].
    apply (dispatch_fromScript (SetTypingIndex (-1))); [|left; reflexivity].
    apply (dispatch_fromScript ResetMessages); [exact Hw | exact I].
  - unfold showNextMessage.
    destruct (closures w !! r) as [env|]; [|exact Hw].
    destruct (isCancelled env || bool_decide (length script ≤ index env));
      [exact Hw|].
    destruct (script !! index env) as [msg|] eqn:Hmsg; [|exact Hw].
    destruct (is_ai msg) eqn:Hai.
    + apply setTimeout_fromScript;
        [|exact (list_elem_of_lookup_2 _ _ _ Hmsg)].
      apply (dispatch_fromScript (SetTypingIndex _)); [exact Hw|].
      right. exists (index env), msg. repeat split; assumption.
    + apply setTimeout_fromScript;
        [exact Hw | exact (list_elem_of_lookup_2 _ _ _ Hmsg)].
  - unfold revealAi, setVisibleMessages_append, setTypingIndex.
    destruct (closures w !! r) as [env|]; [|exact Hw].
    destruct (isCancelled env); [exact Hw|].
    apply setTimeout_fromScript; [|exact I]. apply incrIndex_fromScript.
    apply (dispatch_fromScript (SetTypingIndex (-1))); [|left; reflexivity].
    apply (dispatch_fromScript (AppendMessage msg)); [exact Hw | exact Hcb].
  - unfold revealCustomer, setVisibleMessages_append.
    destruct (closures w !! r) as [env|]; [|exact Hw].
    destruct (isCancelled env); [exact Hw|].
    apply setTimeout_fromScript; [|exact I]. apply incrIndex_fromScript.
    apply (dispatch_fromScript (AppendMessage msg)); [exact Hw | exact Hcb].
Qed.

Lemma remove_fromScript id w :
  fromScript script w → fromScript script (with_queue (nextTimerId w) (remove id (timers w)) w).
Proof.
  intros (Hvis & Htm & Hty). repeat split; try assumption. cbn.
  apply list.Forall_forall. intros t Ht. apply list_elem_of_filter in Ht as (_ & Ht).
  revert t Ht. apply list.Forall_forall. exact Htm.
Qed.

Lemma clearTimeout_fromScript t w : fromScript script w → fromScript script (clearTimeout t w).
Proof.
  intros Hw. destruct t as [id|]; [apply remove_fromScript|]; exact Hw.
Qed.

Lemma step_fromScript w e : fromScript script w → fromScript script (step script w e).
Proof.
  intros Hw. destruct e as [b| |ms|]; cbn [step].
  - unfold intersect. destruct (Comparison.mounted w); [|exact Hw].
    assert (Hw1 : fromScript script (with_entry (Some b) w)) by exact Hw.
    case_bool_decide; [exact Hw1|].
    apply (clearTimeout_fromScript (effectTimeout (with_entry (Some b) w))) in Hw1.
    fold (effectCleanup (with_entry (Some b) w)) in Hw1.
    revert Hw1. generalize (effectCleanup (with_entry (Some b) w)). intros w2 Hw2.
    unfold effectBody.
    destruct (comparisonVisible w2 && negb (hasBeenVisibleRef w2)).
    + apply (setTimeout_fromScript CbSettle 1000 (with_ref true w2));
        [exact Hw2 | exact I].
    + destruct (negb (comparisonVisible w2) && hasBeenVisibleRef w2); exact Hw2.
  - unfold fire. destruct (earliest (timers w)) as [t0|] eqn:Hearly; [|exact Hw].
    apply runCallback_fromScript.
    + apply (remove_fromScript (tid t0) w) in Hw. exact Hw.
    + destruct Hw as (_ & Htm & _). apply earliest_elem in Hearly.
      revert t0 Hearly. apply list.Forall_forall. exact Htm.
  - unfold wait. destruct (earliest (timers w)); exact Hw.
  - unfold unmount. destruct (Comparison.mounted w); [|exact Hw].
    apply (clearTimeout_fromScript (effectTimeout w)) in Hw. exact Hw.
Qed.

Lemma run_fromScript evs : fromScript script (run script evs mount).
Proof.
  unfold run. rewrite <- (rev_involutive evs).
  induction (rev evs) as [|e evs' IH].
  - repeat split; [constructor | constructor | left; reflexivity].
  - cbn [rev]. rewrite fold_left_app. cbn [fold_left]. apply step_fromScript, IH.
Qed.

(** X4.  Whatever the events, replays and runs that overlap included, every
    message on show is a message of the script. *)
Theorem shown_messages_from_script (evs : list Event) :
  Forall (λ msg, msg ∈ script) (visibleMessages (run script evs mount)).
Proof. apply run_fromScript. Qed.

(** X5.  Whatever the events, the typing index is -1 or the position of an agent
    line of the script: the indicator never stands for a customer line or
    for a position outside the script. *)
Theorem typing_index_at_agent_line (evs : list Event) :
  typingAtAgent script (run script evs mount).
Proof. apply run_fromScript. Qed.

(** *** The function [startChatAnimation] returns *)





End ChatInvariants.

(** ** The observer of ComparisonSection's own hook *)

Section LocalObserverFacts.
Import LocalObserver.

Lemma omap_idle (idle : nat) : omap id (replicate idle (@None nat)) = [].
Proof. induction idle as [|idle IH]; [reflexivity | exact IH]. Qed.

Lemma ref_tidy h node :
  h = initial ∨ tidy h →
  observers (ref h node)
  = replicate (length (observers h)) None ++ [node] ∧
  current (ref h node) = Some (length (observers h)).
Proof.
  intros [-> | (idle & last & Hobs & Hcur)]; [split; reflexivity|].
  unfold ref, disconnectCurrent. rewrite Hcur, Hobs. cbn.
  assert (Hlen : length (replicate idle (@None nat)) = idle)
    by apply length_replicate.
  replace (<[idle:=None]> (replicate idle None ++ [last]))
    with (replicate idle (@None nat) ++ [None]).
  - rewrite !length_app, Hlen. cbn.
    replace (idle + 1) with (S idle) by lia. split; [|reflexivity].
    f_equal. rewrite replicate_S_end. reflexivity.
  - symmetry. rewrite insert_app_r_alt by lia.
    rewrite Hlen, Nat.sub_diag. reflexivity.
Qed.

Lemma refs_tidy nodes : ∀ h,
  h = initial ∨ tidy h →
  fold_left ref nodes h = initial ∨ tidy (fold_left ref nodes h).
Proof.
  induction nodes as [|node nodes IH]; intros h Hh; [exact Hh|].
  cbn [fold_left]. apply IH. right.
  destruct (ref_tidy h node Hh) as (Hobs & Hcur).
  exists (length (observers h)), node. split; assumption.
Qed.

End LocalObserverFacts.

(** X7.  However often the ref callback is called, with nodes or with [null],
    the observers it leaves behind are disconnected: the only node watched
    afterwards is the node of the last call, and none when that call passed
    [null]. *)
Theorem local_observer_watches_last_node (nodes : list (option nat)) (node : option nat) :
  LocalObserver.watched
    (fold_left LocalObserver.ref (nodes ++ [node]) LocalObserver.initial)
  = match node with Some n => [n] | None => [] end.
Proof.
  rewrite fold_left_app. cbn [fold_left].
  destruct (ref_tidy (fold_left LocalObserver.ref nodes LocalObserver.initial) node
              (refs_tidy nodes _ (or_introl eq_refl))) as (Hobs & _).
  unfold LocalObserver.watched. rewrite Hobs, omap_app, omap_idle.
  destruct node; reflexivity.
Qed.

(** ** The one-shot hook *)

Section OneShotFacts.
Import Visibility.

Lemma entries_not_intersecting es : ∀ h,
  Forall (λ b, b = false) es → fold_left onEntry es h = h.
Proof.
  induction es as [|b es IH]; intros h Hes; [reflexivity|].
  inversion Hes as [|? ? -> Hrest]; subst. cbn [fold_left onEntry]. apply IH, Hrest.
Qed.

Lemma entries_intersecting es : ∀ h,
  true ∈ es →
  isVisible (fold_left onEntry es h) = true ∧
  observing (fold_left onEntry es h) = false ∧
  targetBound (fold_left onEntry es h) = targetBound h ∧
  mounted (fold_left onEntry es h) = mounted h.
Proof.
  induction es as [|b es IH]; intros h Hin; [inversion Hin|].
  cbn [fold_left].
  destruct (decide (true ∈ es)) as [Hes | Hes].
  - destruct (IH (onEntry h b) Hes) as (-> & -> & -> & ->).
    unfold onEntry. destruct b; repeat split.
  - apply elem_of_cons in Hin as [<- | Hin]; [|contradiction].
    rewrite entries_not_intersecting.
    + repeat split.
    + apply list.Forall_forall. intros [] Hx; [contradiction | reflexivity].
Qed.

End OneShotFacts.

(** X8.  A hook whose ref never received an element is never visible, whatever
    is delivered and however often its owner renders. *)
Theorem unbound_target_never_visible (evs : list Visibility.Event) :
  Visibility.isVisible (Visibility.run evs (Visibility.mount false)) = false.
Proof.
  assert (Hgen : ∀ h,
            Visibility.targetBound h = false → Visibility.observing h = false →
            Visibility.isVisible (Visibility.run evs h) = Visibility.isVisible h).
  { induction evs as [|e evs IH]; intros h Hb Ho; [reflexivity|].
    cbn [Visibility.run fold_left]. fold (Visibility.run evs (Visibility.step h e)).
    destruct e as [es|changed|]; cbn [Visibility.step].
    - rewrite Ho, andb_false_r. apply IH; assumption.
    - destruct (Visibility.mounted h && changed); [|apply IH; assumption].
      rewrite IH; [reflexivity | exact Hb | exact Hb].
    - destruct (Visibility.mounted h); [|apply IH; assumption].
      rewrite IH; [reflexivity | exact Hb | reflexivity]. }
  apply (Hgen (Visibility.mount false)); reflexivity.
Qed.

(** X9.  Only an intersecting entry makes a hook visible: over events whose
    deliveries hold no intersecting entry, [isVisible] keeps its value. *)
Theorem hidden_without_intersection (h : Visibility.Hook) (evs : list Visibility.Event) :
  Forall quiet evs →
  Visibility.isVisible (Visibility.run evs h) = Visibility.isVisible h.
Proof.
  revert h. induction evs as [|e evs IH]; intros h Hq; [reflexivity|].
  inversion Hq as [|? ? He Hrest]; subst.
  cbn [Visibility.run fold_left]. fold (Visibility.run evs (Visibility.step h e)).
  rewrite (IH _ Hrest).
  destruct e as [es|changed|]; cbn [Visibility.step quiet] in *.
  - destruct (Visibility.mounted h && Visibility.observing h); [|reflexivity].
    rewrite entries_not_intersecting by exact He. reflexivity.
  - destruct (Visibility.mounted h && changed); reflexivity.
  - destruct (Visibility.mounted h); reflexivity.
Qed.

Lemma hidden_without_intersection_witness :
  Visibility.isVisible
    (Visibility.run
       [Visibility.Deliver [false; false]; Visibility.Render true;
        Visibility.Deliver [false]]
       (Visibility.mount true))
  = false.
Proof.
  apply (hidden_without_intersection (Visibility.mount true)).
  repeat constructor.
Defined.

(** X10.  A delivery with an intersecting entry, to a mounted hook that is
    observing, makes it visible and disconnects the observer: what is
    delivered after that changes nothing.  A render with new options
    creates an observer that watches the target again, and [isVisible]
    stays true. *)
Theorem first_intersection_disconnects
    (h : Visibility.Hook) (es es' : list bool) :
  Visibility.mounted h = true → Visibility.observing h = true → true ∈ es →
  let h' := Visibility.step h (Visibility.Deliver es) in
  Visibility.isVisible h' = true ∧ Visibility.observing h' = false ∧
  Visibility.step h' (Visibility.Deliver es') = h' ∧
  Visibility.isVisible (Visibility.step h' (Visibility.Render true)) = true ∧
  Visibility.observing (Visibility.step h' (Visibility.Render true))
  = Visibility.targetBound h.
Proof.
  intros Hm Ho Hin. cbv zeta. cbn [Visibility.step]. rewrite Hm, Ho. cbn [andb].
  destruct (entries_intersecting es h Hin) as (Hv & Ho' & Hb & Hm').
  rewrite Ho', Hm', Hm. cbn [andb].
  unfold Visibility.effectBody, Visibility.effectCleanup. cbn.
  repeat split; assumption.
Qed.

Lemma first_intersection_disconnects_witness :
  let h' := Visibility.step (Visibility.mount true) (Visibility.Deliver [false; true]) in
  Visibility.isVisible h' = true ∧ Visibility.observing h' = false ∧
  Visibility.step h' (Visibility.Deliver [true]) = h' ∧
  Visibility.isVisible (Visibility.step h' (Visibility.Render true)) = true ∧
  Visibility.observing (Visibility.step h' (Visibility.Render true)) = true.
Proof.
  apply (first_intersection_disconnects (Visibility.mount true) [false; true] [true]);
    [reflexivity | reflexivity |].
  apply list_elem_of_further, list_elem_of_here.
Defined.

(** ** Further properties of the theme flag *)

Section ThemeFacts.
Import Theme.

Lemma themeEffect_settled a : settledTheme (themeEffect a).
Proof.
  unfold settledTheme, themeEffect.
  destruct (isDarkMode a) eqn:Hd; cbn; rewrite ?Hd;
    (split; [apply lookup_insert_eq | reflexivity]).
Qed.

Lemma toggles_settled n stored cls :
  settledTheme (Nat.iter n toggleDarkMode (startup stored cls)).
Proof. destruct n; [|rewrite Nat.iter_succ]; apply themeEffect_settled. Qed.

Lemma themeEffect_other a k :
  k ≠ "theme" → localStorage (themeEffect a) !! k = localStorage a !! k.
Proof.
  intros Hk. unfold themeEffect.
  destruct (isDarkMode a); cbn; apply lookup_insert_ne; congruence.
Qed.

Lemma toggles_other n stored cls k :
  k ≠ "theme" →
  localStorage (Nat.iter n toggleDarkMode (startup stored cls)) !! k = stored !! k.
Proof.
  intros Hk. induction n as [|n IH].
  - apply (themeEffect_other (init stored cls) k Hk).
  - rewrite Nat.iter_succ. unfold toggleDarkMode at 1.
    rewrite themeEffect_other by exact Hk. exact IH.
Qed.

End ThemeFacts.

(** X11.  The theme survives a reload: starting up again from the storage a
    session leaves behind, after any number of toggles, gives the mode the
    session ended in. *)
Theorem theme_survives_reload
    (stored : gmap string string) (cls cls' : bool) (n : nat) :
  let a := Nat.iter n Theme.toggleDarkMode (Theme.startup stored cls) in
  Theme.isDarkMode (Theme.startup (Theme.localStorage a) cls')
  = Theme.isDarkMode a.
Proof.
  cbv zeta. destruct (toggles_settled n stored cls) as (Hstored & _).
  unfold Theme.startup at 1. rewrite themeEffect_mode. unfold Theme.init. cbn.
  rewrite Hstored.
  destruct (Theme.isDarkMode _); [apply bool_decide_eq_true_2 | apply bool_decide_eq_false_2];
    congruence.
Qed.

(** X12.  Startup and toggles write the key ["theme"] only: every other key of the
    storage keeps the value it had. *)
Theorem theme_leaves_other_keys
    (stored : gmap string string) (cls : bool) (n : nat) (k : string) :
  k ≠ "theme" →
  Theme.localStorage (Nat.iter n Theme.toggleDarkMode (Theme.startup stored cls)) !! k
  = stored !! k.
Proof. apply toggles_other. Qed.

Lemma theme_leaves_other_keys_witness :
  Theme.localStorage
    (Nat.iter 3 Theme.toggleDarkMode
       (Theme.startup {[ "lang" := "en"; "theme" := "dark" ]} false)) !! "lang"
  = Some "en".
Proof.
  rewrite (theme_leaves_other_keys {[ "lang" := "en"; "theme" := "dark" ]} false 3 "lang")
    by discriminate.
  reflexivity.
Defined.

(** X13.  After startup and after every toggle the class ['dark'] is on the
    document exactly when dark mode is on, and two toggles in a row bring
    back the mode, the class and the whole storage. *)
Theorem theme_toggle_twice
    (stored : gmap string string) (cls : bool) (n : nat) :
  let a := Nat.iter n Theme.toggleDarkMode (Theme.startup stored cls) in
  let b := Theme.toggleDarkMode (Theme.toggleDarkMode a) in
  Theme.darkClass a = Theme.isDarkMode a ∧
  Theme.isDarkMode b = Theme.isDarkMode a ∧
  Theme.darkClass b = Theme.darkClass a ∧
  Theme.localStorage b = Theme.localStorage a.
Proof.
  cbv zeta. destruct (toggles_settled n stored cls) as (Hstored & Hcls).
  revert Hstored Hcls.
  generalize (Nat.iter n Theme.toggleDarkMode (Theme.startup stored cls)).
  intros a Hstored Hcls. split; [exact Hcls|].
  unfold Theme.toggleDarkMode, Theme.themeEffect. cbn.
  destruct (Theme.isDarkMode a) eqn:Hd; cbn; rewrite Hcls;
    (split; [reflexivity|]); (split; [reflexivity|]);
    rewrite insert_insert_eq; apply insert_id; exact Hstored.
Qed.

(** ** Further properties of the Contact Us form *)

Section HeroFacts.
Import Hero.

Lemma onClick_requests st :
  requests (onClick st)
  = requests st ++
    (if showInput st && negb (bool_decide (email st = "")) then [email st] else []).
Proof.
  unfold onClick, handleContactUs.
  destruct (showInput st); cbn; [|symmetry; apply app_nil_r].
  case_bool_decide; cbn; [symmetry; apply app_nil_r | reflexivity].
Qed.

Lemma settled_requests o st : requests (settled o st) = requests st.
Proof.
  unfold settled. destruct o as [code json|]; [|reflexivity].
  destruct (ok code); [reflexivity|]. destruct json; reflexivity.
Qed.

Lemma clicks_send n : ∀ st,
  showInput st = true → email st ≠ "" →
  requests (Nat.iter n onClick st) = requests st ++ replicate n (email st) ∧
  email (Nat.iter n onClick st) = email st ∧
  showInput (Nat.iter n onClick st) = true.
Proof.
  induction n as [|n IH]; intros st Hshow Hemail.
  - cbn. rewrite app_nil_r. repeat split. exact Hshow.
  - rewrite Nat.iter_succ. destruct (IH st Hshow Hemail) as (Hreq & Hem & Hsh).
    revert Hreq Hem Hsh. generalize (Nat.iter n onClick st). intros s Hreq Hem Hsh.
    assert (Hne : email s ≠ "") by congruence.
    rewrite onClick_requests, Hsh, (bool_decide_eq_false_2 _ Hne), Hreq, Hem. cbn.
    unfold onClick, handleContactUs.
    rewrite Hsh, (bool_decide_eq_false_2 _ Hne). cbn.
    rewrite <- app_assoc.
    change (email st :: replicate n (email st)) with (replicate (S n) (email st)).
    rewrite replicate_S_end. repeat split; assumption.
Qed.

End HeroFacts.

(** X14.  Whatever the user types and clicks and however the requests settle, no
    request is sent with an empty e-mail address. *)
Theorem contact_never_sends_empty_email (evs : list HeroFlow.Event) :
  Forall (λ userEmail, userEmail ≠ "")
    (Hero.requests (HeroFlow.st (HeroFlow.run evs HeroFlow.initial))).
Proof.
  unfold HeroFlow.run. rewrite <- (rev_involutive evs).
  induction (rev evs) as [|e evs' IH]; [constructor|].
  cbn [rev]. rewrite fold_left_app. cbn [fold_left].
  revert IH. generalize (fold_left HeroFlow.step (rev evs') HeroFlow.initial).
  intros f IH. destruct e as [v| |o]; cbn [HeroFlow.step HeroFlow.st].
  - exact IH.
  - rewrite onClick_requests. apply list.Forall_app. split; [exact IH|].
    destruct (Hero.showInput (HeroFlow.st f)); cbn; [|constructor].
    case_bool_decide; cbn; constructor; [assumption | constructor].
  - destruct (HeroFlow.pending f); [exact IH|]. cbn [HeroFlow.st].
    rewrite settled_requests. exact IH.
Qed.

(** X15.  The first click on Contact Us only opens the input: whatever was typed
    before, no request is sent and the button is not in its loading
    state. *)
Theorem first_click_opens_input (typed : list string) :
  let f := HeroFlow.run (map HeroFlow.TypeEmail typed ++ [HeroFlow.Click])
             HeroFlow.initial in
  Hero.showInput (HeroFlow.st f) = true ∧ Hero.requests (HeroFlow.st f) = [] ∧
  Hero.isLoading (HeroFlow.st f) = false ∧ HeroFlow.pending f = 0.
Proof.
  cbv zeta. unfold HeroFlow.run. rewrite fold_left_app. cbn [fold_left].
  assert (Htyped : ∀ f,
            Hero.showInput (HeroFlow.st f) = false →
            let g := fold_left HeroFlow.step (map HeroFlow.TypeEmail typed) f in
            Hero.showInput (HeroFlow.st g) = false ∧
            Hero.requests (HeroFlow.st g) = Hero.requests (HeroFlow.st f) ∧
            Hero.isLoading (HeroFlow.st g) = Hero.isLoading (HeroFlow.st f) ∧
            HeroFlow.pending g = HeroFlow.pending f).
  { induction typed as [|v typed IH]; intros f Hf; [repeat split; exact Hf|].
    cbn [map fold_left]. apply (IH (HeroFlow.step f (HeroFlow.TypeEmail v))).
    exact Hf. }
  destruct (Htyped HeroFlow.initial eq_refl) as (Hshow & Hreq & Hload & Hpend).
  cbn [HeroFlow.step HeroFlow.st HeroFlow.pending].
  unfold Hero.onClick. rewrite Hshow. cbn. rewrite Hreq, Hload, Hpend.
  repeat split.
Qed.

(** X16.  The Contact Us button is not locked while a request is loading: with
    the input open and an address typed, [n] clicks send [n] requests with
    that address. *)
Theorem contact_clicks_all_send (st : Hero.State) (n : nat) :
  Hero.showInput st = true → Hero.email st ≠ "" →
  Hero.requests (Nat.iter n Hero.onClick st)
  = Hero.requests st ++ replicate n (Hero.email st).
Proof. intros Hshow Hemail. apply (clicks_send n st Hshow Hemail). Qed.

Lemma contact_clicks_all_send_witness :
  Hero.requests
    (Nat.iter 2 Hero.onClick
       {| Hero.email := "a@b.c"; Hero.status := ""; Hero.isLoading := false;
          Hero.showInput := true; Hero.requests := [] |})
  = ["a@b.c"; "a@b.c"].
Proof.
  exact (contact_clicks_all_send
           {| Hero.email := "a@b.c"; Hero.status := ""; Hero.isLoading := false;
              Hero.showInput := true; Hero.requests := [] |} 2
           eq_refl ltac:(discriminate)).
Defined.

(** X17.  The button shows its loading state only while a request is pending:
    whatever the user and the network do, once every request has settled
    [isLoading] is false. *)
Theorem contact_idle_not_loading (evs : list HeroFlow.Event) :
  let f := HeroFlow.run evs HeroFlow.initial in
  HeroFlow.pending f = 0 → Hero.isLoading (HeroFlow.st f) = false.
Proof.
  cbv zeta. unfold HeroFlow.run. rewrite <- (rev_involutive evs).
  induction (rev evs) as [|e evs' IH]; [reflexivity|].
  cbn [rev]. rewrite fold_left_app. cbn [fold_left].
  revert IH. generalize (fold_left HeroFlow.step (rev evs') HeroFlow.initial).
  intros f IH. destruct e as [v| |o]; cbn [HeroFlow.step HeroFlow.st HeroFlow.pending].
  - exact IH.
  - rewrite onClick_requests, length_app. unfold Hero.onClick, Hero.handleContactUs.
    destruct (Hero.showInput (HeroFlow.st f)); cbn;
      [case_bool_decide; cbn|]; intros Hp; try lia; apply IH; lia.
  - destruct (HeroFlow.pending f) as [|n] eqn:Hp;
      [intros _; apply IH; reflexivity|].
    intros _. cbn [HeroFlow.st]. unfold Hero.settled.
    destruct o as [code json|]; [|reflexivity].
    destruct (Hero.ok code); [reflexivity|]. destruct json; reflexivity.
Qed.

Lemma contact_idle_not_loading_witness :
  Hero.isLoading
    (HeroFlow.st
       (HeroFlow.run
          [HeroFlow.Click; HeroFlow.TypeEmail "a@b.c"; HeroFlow.Click;
           HeroFlow.Settle (Hero.Response 200 true)]
          HeroFlow.initial))
  = false.
Proof.
  apply (contact_idle_not_loading
           [HeroFlow.Click; HeroFlow.TypeEmail "a@b.c"; HeroFlow.Click;
            HeroFlow.Settle (Hero.Response 200 true)]).
  reflexivity.
Defined.

(** X18.  An error response whose body is not JSON is reported like a transport
    error: [response.json()] rejects inside [then], so [catch] sets the
    status. *)
Theorem contact_error_without_json (code : nat) (st : Hero.State) :
  Hero.ok code = false →
  Hero.settled (Hero.Response code false) st = Hero.settled Hero.Rejected st ∧
  Hero.status (Hero.settled (Hero.Response code true) st)
  ≠ Hero.status (Hero.settled Hero.Rejected st).
Proof.
  intros Hok. unfold Hero.settled. rewrite Hok. split; [reflexivity | discriminate].
Qed.

Lemma contact_error_without_json_witness :
  Hero.status
    (Hero.settled (Hero.Response 500 false)
       {| Hero.email := "a@b.c"; Hero.status := ""; Hero.isLoading := true;
          Hero.showInput := true; Hero.requests := ["a@b.c"] |})
  = "An error occurred. Please try again later.".
Proof.
  rewrite (proj1 (contact_error_without_json 500
                    {| Hero.email := "a@b.c"; Hero.status := "";
                       Hero.isLoading := true; Hero.showInput := true;
                       Hero.requests := ["a@b.c"] |} eq_refl)).
  reflexivity.
Defined.

(** ** Further properties of the lead-capture form *)

Section LeadFacts.
Import LeadForm.
Variable validEmail : string → bool.

(** Typing into the form changes the three fields only. *)
Lemma typing_keeps edits : ∀ a,
  let a' := users validEmail (map (λ '(fld, v), Type_ fld v) edits) a in
  isModalOpen a' = isModalOpen a ∧ submitSuccess a' = submitSuccess a ∧
  isSubmitting a' = isSubmitting a ∧ requests a' = requests a ∧
  inFlight a' = inFlight a ∧ selectedPlan a' = selectedPlan a ∧
  plan (formData a') = plan (formData a).
Proof.
  unfold users.
  induction edits as [|[fld v] edits IH]; intros a; [repeat split|].
  cbn [map fold_left]. cbv zeta in IH.
  destruct (IH (user validEmail a (Type_ fld v))) as (-> & -> & -> & -> & -> & -> & ->).
  cbn [user]. destruct (modalBody a) as [[s|d]|]; [repeat split | | repeat split].
  destruct fld; repeat split.
Qed.

(** A body that passes the constraint validation of the form. *)
Lemma valid_body f :
  valid validEmail f = true →
  body_name (LeadFlow.bodyOf f) ≠ "" ∧ body_userEmail (LeadFlow.bodyOf f) ≠ "" ∧
  validEmail (body_userEmail (LeadFlow.bodyOf f)) = true ∧
  body_mobile (LeadFlow.bodyOf f) ≠ "".
Proof.
  unfold valid. intros Hv.
  apply andb_true_iff in Hv as (Hv & Hmobile).
  apply andb_true_iff in Hv as (Hv & Hcheck).
  apply andb_true_iff in Hv as (Hname & Hemail).
  apply negb_true_iff, bool_decide_eq_false in Hname, Hemail, Hmobile.
  repeat split; assumption.
Qed.

End LeadFacts.

(** X19.  From the first render on, whatever the user does and however the
    requests settle, at most one request is in flight, and one is in flight
    exactly while [isSubmitting] is true. *)
Theorem lead_one_request_in_flight
    (validEmail : string → bool) (evs : list LeadFlow.Event) :
  let a := LeadFlow.run validEmail evs LeadForm.initial in
  LeadForm.inFlight a = if LeadForm.isSubmitting a then 1 else 0.
Proof.
  cbv zeta. unfold LeadFlow.run. rewrite <- (rev_involutive evs).
  induction (rev evs) as [|e evs' IH]; [reflexivity|].
  cbn [rev]. rewrite fold_left_app. cbn [fold_left].
  revert IH.
  generalize (fold_left (LeadFlow.step validEmail) (rev evs') LeadForm.initial).
  intros a IH. destruct e as [u|o]; cbn [LeadFlow.step].
  - destruct u as [|fld v|p| |]; cbn [LeadForm.user].
    + destruct (LeadForm.modalBody a) as [[s|[]]|] eqn:Hbody; try exact IH.
      destruct (LeadForm.valid validEmail (LeadForm.formData a)); [|exact IH].
      destruct (form_shown a Hbody) as (_ & _ & Hsub).
      rewrite Hsub in IH. cbn. rewrite IH. reflexivity.
    + destruct (LeadForm.modalBody a) as [[s|d]|]; exact IH.
    + exact IH.
    + destruct (LeadForm.isModalOpen a); exact IH.
    + destruct (LeadForm.isModalOpen a && negb (LeadForm.isSubmitting a)); exact IH.
  - unfold LeadForm.settle.
    destruct (LeadForm.inFlight a) as [|n] eqn:Hfl; [rewrite Hfl; exact IH|].
    assert (n = 0) as -> by (destruct (LeadForm.isSubmitting a); lia).
    unfold LeadForm.settled. destruct o as [code|]; [|reflexivity].
    destruct (LeadForm.ok code); reflexivity.
Qed.

(** X20.  The plan sent is the plan chosen: after a plan button is clicked,
    with no submission in progress, and the fields are filled in so that
    the form passes the browser's validation, the submit click sends one
    request whose [plan] is the name of that plan and whose other fields are
    what the form holds. *)
Theorem lead_sends_chosen_plan
    (validEmail : string → bool) (a : LeadForm.App) (p : LeadForm.Plan)
    (edits : list (LeadForm.Field * string)) :
  LeadForm.isSubmitting a = false →
  LeadForm.valid validEmail
    (LeadForm.formData
       (LeadForm.users validEmail (map (λ '(fld, v), LeadForm.Type_ fld v) edits)
          (LeadForm.user validEmail a (LeadForm.ClickPlan p)))) = true →
  let filled :=
    LeadForm.users validEmail (map (λ '(fld, v), LeadForm.Type_ fld v) edits)
      (LeadForm.user validEmail a (LeadForm.ClickPlan p)) in
  LeadForm.requests (LeadForm.user validEmail filled LeadForm.ClickSubmit)
  = LeadForm.requests a ++ [LeadFlow.bodyOf (LeadForm.formData filled)] ∧
  LeadForm.plan (LeadForm.formData filled) = LeadForm.plan_name p ∧
  LeadForm.selectedPlan filled = Some p.
Proof.
  intros Hsub Hvalid. cbv zeta. cbn [LeadForm.user] in *.
  destruct (typing_keeps validEmail edits (LeadForm.handlePlanSelect p a))
    as (Hopen & Hstatus & Hsubm & Hreq & _ & Hsel & Hplan).
  cbn in Hopen, Hstatus, Hsubm, Hreq, Hsel, Hplan.
  revert Hvalid Hopen Hstatus Hsubm Hreq Hsel Hplan.
  generalize (LeadForm.users validEmail
                (map (λ '(fld, v), LeadForm.Type_ fld v) edits)
                (LeadForm.handlePlanSelect p a)).
  intros filled Hvalid Hopen Hstatus Hsubm Hreq Hsel Hplan.
  split; [|split; [exact Hplan | exact Hsel]].
  unfold LeadForm.modalBody. rewrite Hopen, Hstatus, Hsubm, Hsub.
  rewrite bool_decide_eq_true_2 by reflexivity. rewrite Hvalid.
  unfold LeadForm.handleFormSubmit, LeadFlow.bodyOf. cbn. rewrite Hreq. reflexivity.
Qed.

Lemma lead_sends_chosen_plan_witness :
  let validEmail := λ s : string, bool_decide (s = "ada@example.com") in
  let filled :=
    LeadForm.users validEmail
      [LeadForm.Type_ LeadForm.FName "Ada";
       LeadForm.Type_ LeadForm.FEmail "ada@example.com";
       LeadForm.Type_ LeadForm.FMobile "5551234"]
      (LeadForm.user validEmail LeadForm.initial
         (LeadForm.ClickPlan {| LeadForm.plan_name := "Growth" |})) in
  LeadForm.requests (LeadForm.user validEmail filled LeadForm.ClickSubmit)
  = [{| LeadForm.body_userEmail := "ada@example.com"; LeadForm.body_name := "Ada";
        LeadForm.body_mobile := "5551234"; LeadForm.body_plan := "Growth" |}].
Proof.
  exact (proj1 (lead_sends_chosen_plan
                  (λ s : string, bool_decide (s = "ada@example.com"))
                  LeadForm.initial {| LeadForm.plan_name := "Growth" |}
                  [(LeadForm.FName, "Ada"); (LeadForm.FEmail, "ada@example.com");
                   (LeadForm.FMobile, "5551234")] eq_refl eq_refl)).
Defined.

(** X21.  After a failed submission of a form that passed the validation,
    the status line stands where the form was, so a click on submit does
    nothing; choosing a plan brings the form back with the values typed
    before, and the next submit click sends them again with the plan chosen
    now. *)
Theorem lead_retry_after_failure
    (validEmail : string → bool)
    (a : LeadForm.App) (o : LeadForm.Outcome) (p : LeadForm.Plan) :
  LeadForm.modalBody a = Some (LeadForm.Form false) →
  LeadForm.valid validEmail (LeadForm.formData a) = true →
  LeadForm.failed o = true →
  let done :=
    LeadForm.settle o (LeadForm.user validEmail a LeadForm.ClickSubmit) in
  LeadForm.user validEmail done LeadForm.ClickSubmit = done ∧
  LeadForm.modalBody (LeadForm.user validEmail done (LeadForm.ClickPlan p))
  = Some (LeadForm.Form false) ∧
  LeadForm.requests
    (LeadForm.users validEmail [LeadForm.ClickPlan p; LeadForm.ClickSubmit] done)
  = LeadForm.requests a ++
    [LeadFlow.bodyOf (LeadForm.formData a);
     {| LeadForm.body_userEmail := LeadForm.email (LeadForm.formData a);
        LeadForm.body_name := LeadForm.name (LeadForm.formData a);
        LeadForm.body_mobile := LeadForm.mobile (LeadForm.formData a);
        LeadForm.body_plan := LeadForm.plan_name p |}].
Proof.
  intros Hform Hvalid Hfail. cbv zeta.
  destruct (form_shown a Hform) as (Hopen & Hstatus & Hsub).
  cbn [LeadForm.user]. rewrite Hform, Hvalid.
  rewrite (settle_failed o a (LeadForm.handleFormSubmit a) Hfail eq_refl).
  pose proof (failureStatus_shown o) as Hshown.
  assert (Hvalid' :
    LeadForm.valid validEmail
      {| LeadForm.name := LeadForm.name (LeadForm.formData a);
         LeadForm.email := LeadForm.email (LeadForm.formData a);
         LeadForm.mobile := LeadForm.mobile (LeadForm.formData a);
         LeadForm.plan := LeadForm.plan_name p |} = true) by exact Hvalid.
  unfold LeadForm.users, LeadForm.modalBody. cbn. rewrite Hopen.
  rewrite (bool_decide_eq_false_2 _ Hshown). cbn.
  repeat split. rewrite bool_decide_eq_true_2 by reflexivity. rewrite Hvalid'.
  unfold LeadFlow.bodyOf. cbn. rewrite <- app_assoc. reflexivity.
Qed.

Lemma lead_retry_after_failure_witness :
  let validEmail := λ s : string, bool_decide (s = "ada@example.com") in
  let a :=
    LeadForm.users validEmail
      [LeadForm.ClickPlan {| LeadForm.plan_name := "Plus" |};
       LeadForm.Type_ LeadForm.FName "Ada";
       LeadForm.Type_ LeadForm.FEmail "ada@example.com";
       LeadForm.Type_ LeadForm.FMobile "5551234"]
      LeadForm.initial in
  let done :=
    LeadForm.settle LeadForm.Rejected
      (LeadForm.user validEmail a LeadForm.ClickSubmit) in
  LeadForm.user validEmail done LeadForm.ClickSubmit = done ∧
  LeadForm.requests
    (LeadForm.users validEmail
       [LeadForm.ClickPlan {| LeadForm.plan_name := "Growth" |};
        LeadForm.ClickSubmit] done)
  = [{| LeadForm.body_userEmail := "ada@example.com"; LeadForm.body_name := "Ada";
        LeadForm.body_mobile := "5551234"; LeadForm.body_plan := "Plus" |};
     {| LeadForm.body_userEmail := "ada@example.com"; LeadForm.body_name := "Ada";
        LeadForm.body_mobile := "5551234"; LeadForm.body_plan := "Growth" |}].
Proof.
  pose proof (lead_retry_after_failure
                (λ s : string, bool_decide (s = "ada@example.com"))
                (LeadForm.users (λ s : string, bool_decide (s = "ada@example.com"))
                   [LeadForm.ClickPlan {| LeadForm.plan_name := "Plus" |};
                    LeadForm.Type_ LeadForm.FName "Ada";
                    LeadForm.Type_ LeadForm.FEmail "ada@example.com";
                    LeadForm.Type_ LeadForm.FMobile "5551234"]
                   LeadForm.initial)
                LeadForm.Rejected {| LeadForm.plan_name := "Growth" |}
                eq_refl eq_refl eq_refl) as (Hnothing & _ & Hsent).
  cbv zeta. split; [exact Hnothing|]. rewrite Hsent. reflexivity.
Defined.

(** X22.  After a 2xx response to the submission of a form that passed the
    validation, the modal shows the thank-you line, the submit lock is
    released, and the next plan chosen opens an empty form that carries only
    the name of that plan. *)
Theorem lead_success_resets_form
    (validEmail : string → bool)
    (a : LeadForm.App) (code : nat) (p : LeadForm.Plan) :
  LeadForm.modalBody a = Some (LeadForm.Form false) →
  LeadForm.valid validEmail (LeadForm.formData a) = true →
  LeadForm.ok code = true →
  let done := LeadForm.settle (LeadForm.Response code)
                (LeadForm.user validEmail a LeadForm.ClickSubmit) in
  LeadForm.modalBody done
  = Some (LeadForm.StatusLine "Thank you! Your request has been submitted.") ∧
  LeadForm.isSubmitting done = false ∧
  LeadForm.modalBody (LeadForm.user validEmail done (LeadForm.ClickPlan p))
  = Some (LeadForm.Form false) ∧
  LeadForm.formData (LeadForm.user validEmail done (LeadForm.ClickPlan p))
  = {| LeadForm.name := ""; LeadForm.email := ""; LeadForm.mobile := "";
       LeadForm.plan := LeadForm.plan_name p |}.
Proof.
  intros Hform Hvalid Hok. cbv zeta.
  destruct (form_shown a Hform) as (Hopen & _ & _).
  cbn [LeadForm.user]. rewrite Hform, Hvalid.
  unfold LeadForm.settle. cbn [LeadForm.handleFormSubmit LeadForm.fetch
    LeadForm.inFlight LeadForm.setSubmitSuccess LeadForm.setIsSubmitting].
  rewrite (settled_ok code _ Hok).
  unfold LeadForm.modalBody. cbn. rewrite Hopen. repeat split.
Qed.

Lemma lead_success_resets_form_witness :
  let validEmail := λ s : string, bool_decide (s = "ada@example.com") in
  let a :=
    LeadForm.users validEmail
      [LeadForm.ClickPlan {| LeadForm.plan_name := "Plus" |};
       LeadForm.Type_ LeadForm.FName "Ada";
       LeadForm.Type_ LeadForm.FEmail "ada@example.com";
       LeadForm.Type_ LeadForm.FMobile "5551234"]
      LeadForm.initial in
  let done :=
    LeadForm.settle (LeadForm.Response 204)
      (LeadForm.user validEmail a LeadForm.ClickSubmit) in
  length (LeadForm.requests done) = 1 ∧
  LeadForm.modalBody done
  = Some (LeadForm.StatusLine "Thank you! Your request has been submitted.") ∧
  LeadForm.isSubmitting done = false.
Proof.
  pose proof (lead_success_resets_form
                (λ s : string, bool_decide (s = "ada@example.com"))
                (LeadForm.users (λ s : string, bool_decide (s = "ada@example.com"))
                   [LeadForm.ClickPlan {| LeadForm.plan_name := "Plus" |};
                    LeadForm.Type_ LeadForm.FName "Ada";
                    LeadForm.Type_ LeadForm.FEmail "ada@example.com";
                    LeadForm.Type_ LeadForm.FMobile "5551234"]
                   LeadForm.initial)
                204 {| LeadForm.plan_name := "Starter" |} eq_refl eq_refl eq_refl)
    as (Hshown & Hunlocked & _).
  cbv zeta. split; [reflexivity|]. split; assumption.
Defined.

(** X23.  An incomplete form is never sent: whatever the user does and
    however the requests settle, every request sent carries a name, an
    e-mail address that the browser accepts, and a mobile number, none of
    them empty. *)
Theorem lead_requests_complete
    (validEmail : string → bool) (evs : list LeadFlow.Event) :
  Forall
    (λ b, LeadForm.body_name b ≠ "" ∧ LeadForm.body_userEmail b ≠ "" ∧
          validEmail (LeadForm.body_userEmail b) = true ∧
          LeadForm.body_mobile b ≠ "")
    (LeadForm.requests (LeadFlow.run validEmail evs LeadForm.initial)).
Proof.
  unfold LeadFlow.run. rewrite <- (rev_involutive evs).
  induction (rev evs) as [|e evs' IH]; [constructor|].
  cbn [rev]. rewrite fold_left_app. cbn [fold_left].
  revert IH.
  generalize (fold_left (LeadFlow.step validEmail) (rev evs') LeadForm.initial).
  intros a IH. destruct e as [u|o]; cbn [LeadFlow.step].
  - destruct u as [|fld v|p| |]; cbn [LeadForm.user].
    + destruct (LeadForm.modalBody a) as [[s|[]]|]; try exact IH.
      destruct (LeadForm.valid validEmail (LeadForm.formData a)) eqn:Hvalid;
        [|exact IH].
      cbn. apply list.Forall_app. split; [exact IH|].
      constructor; [|constructor]. apply (valid_body validEmail _ Hvalid).
    + destruct (LeadForm.modalBody a) as [[s|d]|]; exact IH.
    + exact IH.
    + destruct (LeadForm.isModalOpen a); exact IH.
    + destruct (LeadForm.isModalOpen a && negb (LeadForm.isSubmitting a)); exact IH.
  - unfold LeadForm.settle. destruct (LeadForm.inFlight a); [exact IH|].
    unfold LeadForm.settled. destruct o as [code|]; [|exact IH].
    destruct (LeadForm.ok code); exact IH.
Qed.

(** ** Every run of the chat that is left alone *)

Section AnyRunFacts.
Import AnyRun ChatSafety.
Variable script : list Message.
Variable base : World.

Lemma run_lookup (env : RunEnv) :
  (closures base ++ [env]) !! length (closures base) = Some env.
Proof. apply list_lookup_middle. reflexivity. Qed.

Lemma run_insert (env env' : RunEnv) :
  <[length (closures base) := env']> (closures base ++ [env])
  = closures base ++ [env'].
Proof.
  rewrite insert_app_r_alt by lia. rewrite Nat.sub_diag. reflexivity.
Qed.

Lemma fireOn_single t nid id d cb i vis ty lg :
  t ≤ d →
  fire script (playingOn base t nid [{| tid := id; due := d; callback := cb |}] i vis ty lg)
  = runCallback script cb (playingOn base d nid [] i vis ty lg).
Proof.
  intros Htd. unfold fire, playingOn, with_clock, with_queue. simpl.
  rewrite remove_single. replace (t `max` d) with d by lia. reflexivity.
Qed.

Lemma fireOn_idle t nid i vis ty lg :
  fire script (playingOn base t nid [] i vis ty lg) = playingOn base t nid [] i vis ty lg.
Proof. reflexivity. Qed.

Lemma firesOn_idle k t nid i vis ty lg :
  fires script k (playingOn base t nid [] i vis ty lg)
  = playingOn base t nid [] i vis ty lg.
Proof.
  induction k as [|k IH]; [reflexivity|]. rewrite fires_succ, fireOn_idle. exact IH.
Qed.

Lemma showNextOn_ai t nid i vis ty lg msg :
  script !! i = Some msg → is_ai msg = true →
  showNextMessage script (length (closures base)) (playingOn base t nid [] i vis ty lg)
  = playingOn base t (S nid)
      [{| tid := nid; due := t + 700;
          callback := CbRevealAi (length (closures base)) msg |}]
      i vis (Z.of_nat i) (lg ++ [(t, SetTypingIndex (Z.of_nat i))]).
Proof.
  intros Hi Hai. unfold showNextMessage, playingOn. cbn [closures].
  rewrite run_lookup. cbn [isCancelled index orb].
  rewrite bool_decide_eq_false_2 by (apply lookup_lt_Some in Hi; lia).
  rewrite Hi, Hai. reflexivity.
Qed.

Lemma showNextOn_customer t nid i vis ty lg msg :
  script !! i = Some msg → is_ai msg = false →
  showNextMessage script (length (closures base)) (playingOn base t nid [] i vis ty lg)
  = playingOn base t (S nid)
      [{| tid := nid; due := t + 500;
          callback := CbRevealCustomer (length (closures base)) msg |}]
      i vis ty lg.
Proof.
  intros Hi Hai. unfold showNextMessage, playingOn. cbn [closures].
  rewrite run_lookup. cbn [isCancelled index orb].
  rewrite bool_decide_eq_false_2 by (apply lookup_lt_Some in Hi; lia).
  rewrite Hi, Hai. reflexivity.
Qed.

Lemma showNextOn_end t nid i vis ty lg :
  length script ≤ i →
  showNextMessage script (length (closures base)) (playingOn base t nid [] i vis ty lg)
  = playingOn base t nid [] i vis ty lg.
Proof.
  intros Hi. unfold showNextMessage, playingOn. cbn [closures].
  rewrite run_lookup. cbn [isCancelled index orb].
  rewrite bool_decide_eq_true_2 by assumption. reflexivity.
Qed.

Lemma revealAiOn_step t nid i vis ty lg msg :
  revealAi (length (closures base)) msg (playingOn base t nid [] i vis ty lg)
  = playingOn base t (S nid)
      [{| tid := nid; due := t + 700;
          callback := CbShowNextMessage (length (closures base)) |}]
      (S i) (vis ++ [msg]) (-1)
      (lg ++ [(t, AppendMessage msg); (t, SetTypingIndex (-1))]).
Proof.
  unfold revealAi, playingOn. cbn [closures]. rewrite run_lookup.
  cbn [isCancelled].
  unfold setVisibleMessages_append, setTypingIndex, incrIndex, dispatch,
    setTimeout, with_queue, with_closures. cbn.
  rewrite run_lookup, run_insert. cbn. rewrite <- (app_assoc lg). reflexivity.
Qed.

Lemma revealCustomerOn_step t nid i vis ty lg msg :
  revealCustomer (length (closures base)) msg (playingOn base t nid [] i vis ty lg)
  = playingOn base t (S nid)
      [{| tid := nid; due := t + 700;
          callback := CbShowNextMessage (length (closures base)) |}]
      (S i) (vis ++ [msg]) ty (lg ++ [(t, AppendMessage msg)]).
Proof.
  unfold revealCustomer, playingOn. cbn [closures]. rewrite run_lookup.
  cbn [isCancelled].
  unfold setVisibleMessages_append, incrIndex, dispatch,
    setTimeout, with_queue, with_closures. cbn.
  rewrite run_lookup, run_insert. reflexivity.
Qed.

(** From a gap in front of position [length pre] the run goes through the
    rest of the script, making the scheduled setter calls, and stops. *)
Lemma playbackOn_from suf : ∀ pre t nid id d lg,
  script = pre ++ suf → t ≤ d →
  ∃ t' nid',
    fires script (2 * length suf + 1)
      (playingOn base t nid
         [{| tid := id; due := d;
             callback := CbShowNextMessage (length (closures base)) |}]
         (length pre) pre (-1) lg)
    = playingOn base t' nid' [] (length script) script (-1)
        (lg ++ schedule d (length pre) suf).
Proof.
  induction suf as [|msg suf IH]; intros pre t nid id d lg Hs Htd.
  - exists d, nid. rewrite app_nil_r in Hs. subst pre.
    change (2 * length (@nil Message) + 1) with 1.
    rewrite fires_succ, fireOn_single by exact Htd.
    cbn [runCallback fires Nat.iter schedule].
    rewrite showNextOn_end by reflexivity. rewrite app_nil_r. reflexivity.
  - assert (Hmsg : script !! length pre = Some msg)
      by (rewrite Hs; apply list_lookup_middle; reflexivity).
    assert (Hs' : script = (pre ++ [msg]) ++ suf)
      by (rewrite <- app_assoc; exact Hs).
    assert (Hlen : length (pre ++ [msg]) = S (length pre))
      by (rewrite length_app; simpl; lia).
    replace (2 * length (msg :: suf) + 1) with (S (S (2 * length suf + 1)))
      by (simpl; lia).
    rewrite !fires_succ, fireOn_single by exact Htd. cbn [runCallback schedule].
    destruct (is_ai msg) eqn:Hai.
    + rewrite (showNextOn_ai _ _ _ _ _ _ msg Hmsg Hai).
      rewrite fireOn_single by lia. cbn [runCallback]. rewrite revealAiOn_step.
      rewrite <- Hlen.
      destruct (IH (pre ++ [msg]) (d + 700) (S (S nid)) (S nid) (d + 700 + 700)
                  ((lg ++ [(d, SetTypingIndex (Z.of_nat (length pre)))]) ++
                   [(d + 700, AppendMessage msg); (d + 700, SetTypingIndex (-1))])
                  Hs' ltac:(lia)) as (t' & nid' & Heq).
      exists t', nid'. rewrite Heq. f_equal. rewrite Hlen.
      rewrite <- !app_assoc. reflexivity.
    + rewrite (showNextOn_customer _ _ _ _ _ _ msg Hmsg Hai).
      rewrite fireOn_single by lia. cbn [runCallback]. rewrite revealCustomerOn_step.
      rewrite <- Hlen.
      destruct (IH (pre ++ [msg]) (d + 500) (S (S nid)) (S nid) (d + 500 + 700)
                  (lg ++ [(d + 500, AppendMessage msg)])
                  Hs' ltac:(lia)) as (t' & nid' & Heq).
      exists t', nid'. rewrite Heq. f_equal. rewrite Hlen.
      rewrite <- !app_assoc. reflexivity.
Qed.

Lemma phaseOn_fire w : PhaseOn script base w → PhaseOn script base (fire script w).
Proof.
  intros [t nid id d i lg Htd Hi | t nid id d i msg lg Htd Hmsg Hai
         | t nid id d i msg lg Htd Hmsg Hai | t nid lg].
  - rewrite fireOn_single by exact Htd. cbn [runCallback].
    destruct (script !! i) as [msg|] eqn:Hmsg.
    + destruct (is_ai msg) eqn:Hai.
      * rewrite (showNextOn_ai _ _ _ _ _ _ msg Hmsg Hai).
        apply PhaseOnTyping; [lia | exact Hmsg | exact Hai].
      * rewrite (showNextOn_customer _ _ _ _ _ _ msg Hmsg Hai).
        apply PhaseOnCustomer; [lia | exact Hmsg | exact Hai].
    + apply lookup_ge_None in Hmsg.
      rewrite showNextOn_end by exact Hmsg.
      assert (i = length script) as -> by lia.
      rewrite firstn_all. apply PhaseOnDone.
  - rewrite fireOn_single by exact Htd. cbn [runCallback]. rewrite revealAiOn_step.
    rewrite <- (take_S_r _ _ _ Hmsg).
    apply PhaseOnGap; [lia | apply lookup_lt_Some in Hmsg; lia].
  - rewrite fireOn_single by exact Htd. cbn [runCallback].
    rewrite revealCustomerOn_step. rewrite <- (take_S_r _ _ _ Hmsg).
    apply PhaseOnGap; [lia | apply lookup_lt_Some in Hmsg; lia].
  - rewrite fireOn_idle. apply PhaseOnDone.
Qed.

(** The activation: when the settle timer is the only timer of the mounted
    host, its callback leaves the new run in the gap in front of the first
    line. *)
Lemma settle_starts_run s :
  Comparison.mounted base = true → timers base = [s] → callback s = CbSettle →
  fire script base
  = playingOn base (Nat.max (now base) (due s)) (S (nextTimerId base))
      [{| tid := nextTimerId base; due := Nat.max (now base) (due s) + 300;
          callback := CbShowNextMessage (length (closures base)) |}]
      0 [] (-1)
      (log base ++ [(Nat.max (now base) (due s), ResetMessages);
                    (Nat.max (now base) (due s), SetTypingIndex (-1))]).
Proof.
  intros Hm Htm Hcb. unfold fire. rewrite Htm. cbn [earliest]. rewrite Hcb.
  destruct s as [sid sdue scb]. cbn [tid due] in *. rewrite remove_single.
  cbn [runCallback]. unfold_world. cbn. rewrite Hm.
  unfold playingOn. rewrite <- (app_assoc (log base)). reflexivity.
Qed.

Lemma phaseOn_playback s k :
  Comparison.mounted base = true → timers base = [s] → callback s = CbSettle →
  PhaseOn script base (fires script (S k) base).
Proof.
  intros Hm Htm Hcb. induction k as [|k IH].
  - change (fires script 1 base) with (fire script base).
    rewrite (settle_starts_run s Hm Htm Hcb).
    apply (PhaseOnGap script base _ _ _ _ 0); lia.
  - change (fires script (S (S k)) base)
      with (fire script (fires script (S k) base)).
    apply phaseOn_fire, IH.
Qed.

(** A run left alone comes to rest after [2 * length script + 2] timers. *)
Lemma playbackOn_completes s j :
  Comparison.mounted base = true → timers base = [s] → callback s = CbSettle →
  ∃ t' nid',
    fires script (2 * length script + 2 + j) base
    = playingOn base t' nid' [] (length script) script (-1)
        (log base ++
         ([(Nat.max (now base) (due s), ResetMessages);
           (Nat.max (now base) (due s), SetTypingIndex (-1))] ++
          schedule (Nat.max (now base) (due s) + 300) 0 script)).
Proof.
  intros Hm Htm Hcb.
  replace (2 * length script + 2 + j) with (S ((2 * length script + 1) + j)) by lia.
  rewrite fires_succ, fires_add, (settle_starts_run s Hm Htm Hcb).
  destruct (playbackOn_from script [] (Nat.max (now base) (due s))
              (S (nextTimerId base)) (nextTimerId base)
              (Nat.max (now base) (due s) + 300)
              (log base ++ [(Nat.max (now base) (due s), ResetMessages);
                            (Nat.max (now base) (due s), SetTypingIndex (-1))])
              eq_refl ltac:(lia)) as (t' & nid' & Heq).
  exists t', nid'. cbn [length] in Heq. rewrite Heq, firesOn_idle.
  rewrite <- (app_assoc (log base)). reflexivity.
Qed.






Lemma phaseOn_wait ms w : PhaseOn script base w → PhaseOn script base (wait ms w).
Proof.
  intros [t nid id d i lg Htd Hi | t nid id d i msg lg Htd Hmsg Hai
         | t nid id d i msg lg Htd Hmsg Hai | t nid lg].
  - apply (PhaseOnGap script base (Nat.min (t + ms) (Nat.max t d))); [cbn; lia | exact Hi].
  - apply (PhaseOnTyping script base (Nat.min (t + ms) (Nat.max t d)));
      [cbn; lia | exact Hmsg | exact Hai].
  - apply (PhaseOnCustomer script base (Nat.min (t + ms) (Nat.max t d)));
      [cbn; lia | exact Hmsg | exact Hai].
  - exact (PhaseOnDone script base (t + ms) nid lg).
Qed.

Lemma phaseOn_run evs : ∀ w,
  leftAlone evs → PhaseOn script base w → PhaseOn script base (run script evs w).
Proof.
  induction evs as [|e evs IH]; intros w Hq Hw; [exact Hw|].
  apply list.Forall_cons in Hq as (He & Hq). cbn [run fold_left]. apply (IH _ Hq).
  destruct e as [b| |ms|]; cbn [step]; try contradiction.
  - apply phaseOn_fire, Hw.
  - apply phaseOn_wait, Hw.
Qed.

(** What a phase says about the messages on show and the typing index. *)
Lemma phaseOn_invariant w :
  PhaseOn script base w →
  visibleMessages w `prefix_of` script ∧
  (timers w = [] → visibleMessages w = script) ∧
  (typing w →
     typingIndex w = Z.of_nat (length (visibleMessages w)) ∧
     ∃ msg, script !! length (visibleMessages w) = Some msg ∧ is_ai msg = true) ∧
  (typing w ↔ ∃ id d msg,
     timers w = [{| tid := id; due := d;
                    callback := CbRevealAi (length (closures base)) msg |}]).
Proof.
  unfold typing.
  intros [t nid id d i lg Htd Hi | t nid id d i msg lg Htd Hmsg Hai
         | t nid id d i msg lg Htd Hmsg Hai | t nid lg]; cbn.
  - split; [apply prefix_take|]. split; [discriminate|].
    split; [congruence|]. split; [congruence|].
    intros (? & ? & ? & [=]).
  - assert (Hlen : length (take i script) = i)
      by (apply length_take_le; apply lookup_lt_Some in Hmsg; lia).
    split; [apply prefix_take|]. split; [discriminate|].
    rewrite Hlen. split; [eauto|]. split; [eauto|]. lia.
  - split; [apply prefix_take|]. split; [discriminate|].
    split; [congruence|]. split; [congruence|].
    intros (? & ? & ? & [=]).
  - split; [reflexivity|]. split; [reflexivity|].
    split; [congruence|]. split; [congruence|].
    intros (? & ? & ? & [=]).
Qed.



(** C6, amended.  At every state of a run that is left alone, from its
    activation on, the messages on show are a prefix of the script, and the
    whole script once no timer is pending; the typing index, when set, is
    the number of messages on show and points at an agent line; and it is
    set exactly while the reveal callback of an agent line is pending, not
    during the delays that precede the arrival at that line.  In every
    state the instance can reach at all, the typing index, when set, points
    at an agent line of the script, and the messages on show are lines of
    the script. *)
Theorem playback_invariant s evs :
  Comparison.mounted base = true → timers base = [s] → callback s = CbSettle →
  leftAlone evs →
  let w := run script evs (fire script base) in
  visibleMessages w `prefix_of` script ∧
  (timers w = [] → visibleMessages w = script) ∧
  (typing w →
     typingIndex w = Z.of_nat (length (visibleMessages w)) ∧
     ∃ msg, script !! length (visibleMessages w) = Some msg ∧ is_ai msg = true) ∧
  (typing w ↔ ∃ id d msg,
     timers w = [{| tid := id; due := d;
                    callback := CbRevealAi (length (closures base)) msg |}]) ∧
  (∀ evs', typingAtAgent script (run script evs' mount) ∧
           Forall (λ msg, msg ∈ script) (visibleMessages (run script evs' mount))).
Proof.
  intros Hm Htm Hcb Hq. cbv zeta.
  destruct (phaseOn_invariant _
              (phaseOn_run evs _ Hq (phaseOn_playback s 0 Hm Htm Hcb)))
    as (Hpre & Hdone & Hty & Hiff).
  split; [exact Hpre|]. split; [exact Hdone|]. split; [exact Hty|].
  split; [exact Hiff|].
  intros evs'. destruct (run_fromScript script evs') as (Hvis & _ & Hat).
  split; assumption.
Qed.

End AnyRunFacts.



Lemma playback_invariant_witness :
  let base := AnyRun.revisited messages in
  Comparison.mounted base = true ∧ AnyRun.leftAlone [Fire; Wait 100; Fire; Fire] ∧
  visibleMessages (run messages [Fire; Wait 100; Fire; Fire] (fire messages base))
    `prefix_of` messages.
Proof.
  cbv zeta.
  assert (Hm : Comparison.mounted (AnyRun.revisited messages) = true)
    by (vm_compute; reflexivity).
  assert (Htm : ∃ s, timers (AnyRun.revisited messages) = [s] ∧ callback s = CbSettle)
    by (vm_compute; eexists; split; reflexivity).
  destruct Htm as (s & Htm & Hcb).
  assert (Hq : AnyRun.leftAlone [Fire; Wait 100; Fire; Fire])
    by (repeat constructor).
  split; [exact Hm|]. split; [exact Hq|].
  destruct (playback_invariant messages (AnyRun.revisited messages) s
              [Fire; Wait 100; Fire; Fire] Hm Htm Hcb Hq) as (Hpre & _).
  exact Hpre.
Defined.

(** The run on [messages], after it has reached the third line: two
    messages are on show, the next line is an agent line, and the typing
    index is not set. *)
Lemma gap_state :
  visibleMessages (fires messages 4 (activatedAt messages 0)) = take 2 messages ∧
  typingIndex (fires messages 4 (activatedAt messages 0)) = (-1)%Z.
Proof. vm_compute. split; reflexivity. Qed.

(** C6, as stated, fails.  In the gap after the second line of [messages]
    the next line is an agent line and the typing index is not set.  And
    the property does not hold in every reachable state: when the host
    leaves the viewport during the first run and enters it again, the
    first run goes on next to the replay, and the mounted instance shows
    the customer's line alone, which is no prefix of [messages], with the
    typing index at 0. *)
Lemma strong_invariant_fails :
  ¬ strongInvariant messages (fires messages 4 (activatedAt messages 0)) ∧
  (Comparison.mounted (AnyRun.overlapped messages) = true ∧
   visibleMessages (AnyRun.overlapped messages) = take 1 (drop 1 messages) ∧
   typingIndex (AnyRun.overlapped messages) = 0%Z ∧
   ¬ visibleMessages (AnyRun.overlapped messages) `prefix_of` messages ∧
   ¬ strongInvariant messages (AnyRun.overlapped messages)).
Proof.
  assert (Hvis : visibleMessages (AnyRun.overlapped messages) = take 1 (drop 1 messages))
    by (vm_compute; reflexivity).
  assert (Hpre : ¬ visibleMessages (AnyRun.overlapped messages) `prefix_of` messages).
  { rewrite Hvis. intros [k Hk]. vm_compute in Hk. discriminate Hk. }
  split; [|split; [|split; [|split; [|split]]]].
  - destruct gap_state as (Hgap & Hty).
    intros (_ & _ & _ & [_ Hset]). unfold typing in Hset. apply Hset; [|exact Hty].
    rewrite Hgap. eexists. split; reflexivity.
  - vm_compute. reflexivity.
  - exact Hvis.
  - vm_compute. reflexivity.
  - exact Hpre.
  - intros (Hp & _). exact (Hpre Hp).
Qed.

(** *** The state on show is what the calls made it *)

Section Replay.
Import AnyRun.
Variable script : list Message.


Lemma dispatch_replay a w :
  Comparison.mounted w = true →
  log (dispatch a w) = log w ++ [(now w, a)] ∧
  (visibleMessages (dispatch a w), typingIndex (dispatch a w))
  = applyCall (visibleMessages w, typingIndex w) a.
Proof.
  intros Hm. unfold dispatch. cbn. rewrite Hm. destruct a; split; reflexivity.
Qed.




End Replay.


(** *** The replay of a chat that has finished *)

Section Revisit.
Import AnyRun.
Variable script : list Message.

Lemma run_fires k : ∀ w, run script (replicate k Fire) w = fires script k w.
Proof.
  induction k as [|k IH]; intros w; [reflexivity|].
  rewrite fires_succ. cbn [replicate run fold_left step]. apply IH.
Qed.

(** The host, with no timer pending, leaves the viewport and enters it
    again: the effect clears the flag and then registers the settle timer. *)
Lemma revisit_idle w :
  Comparison.mounted w = true → comparisonVisible w = true →
  hasBeenVisibleRef w = true → timers w = [] →
  let w' := run script [Intersect false; Intersect true] w in
  Comparison.mounted w' = true ∧
  timers w' = [{| tid := nextTimerId w; due := now w + 1000;
                  callback := CbSettle |}] ∧
  now w' = now w ∧ visibleMessages w' = visibleMessages w ∧
  typingIndex w' = typingIndex w ∧ hasBeenVisibleRef w' = true ∧
  closures w' = closures w.
Proof.
  destruct w as [t nid tm cl m en vis ty ref eto lg].
  unfold comparisonVisible. cbn [Comparison.mounted entry hasBeenVisibleRef timers].
  intros -> Hen -> ->. destruct en as [[|]|]; try discriminate. clear Hen.
  cbv zeta. destruct eto as [id|]; vm_compute; repeat split.
Qed.

Lemma revisited_eq :
  revisited script
  = run script [Intersect false; Intersect true]
      (fires script (2 * length script + 2) (step script mount (Intersect true))).
Proof.
  unfold revisited, run. rewrite !fold_left_app.
  change (fold_left (step script) [Intersect true] mount)
    with (step script mount (Intersect true)).
  f_equal. apply run_fires.
Qed.

(** X25.  When the chat has played to its end and the host leaves the
    viewport and enters it again, the settle timer of the replay is the
    only pending timer, every line of the script is still on show, and the
    flag is set again: the replay starts from the state the properties of
    a run left alone ask for. *)
Theorem revisit_starts_clean_replay :
  ∃ s,
    Comparison.mounted (revisited script) = true ∧
    timers (revisited script) = [s] ∧ callback s = CbSettle ∧
    due s = now (revisited script) + 1000 ∧
    visibleMessages (revisited script) = script ∧
    typingIndex (revisited script) = (-1)%Z ∧
    hasBeenVisibleRef (revisited script) = true ∧
    activations (revisited script) = 1.
Proof.
  rewrite revisited_eq.
  assert (Hbase : entry (step script mount (Intersect true)) = Some true ∧
                  hasBeenVisibleRef (step script mount (Intersect true)) = true ∧
                  closures (step script mount (Intersect true)) = [])
    by (vm_compute; repeat split).
  destruct Hbase as (Hentry & Hflag & Hnone).
  destruct (playbackOn_completes script (step script mount (Intersect true))
              {| tid := 0; due := 1000; callback := CbSettle |} 0
              eq_refl eq_refl eq_refl) as (t' & nid' & Heq).
  rewrite Nat.add_0_r in Heq.
  destruct (revisit_idle
              (fires script (2 * length script + 2)
                 (step script mount (Intersect true))))
    as (Hm & Htm & Hnow & Hvis & Hty & Href & Hcl).
  - rewrite Heq. reflexivity.
  - rewrite Heq. unfold comparisonVisible, playingOn. cbn [entry].
    rewrite Hentry. reflexivity.
  - rewrite Heq. unfold playingOn. cbn [hasBeenVisibleRef]. exact Hflag.
  - rewrite Heq. reflexivity.
  - eexists. rewrite Hm, Htm, Hnow, Hvis, Hty, Href. unfold activations.
    rewrite Hcl, Heq. unfold playingOn.
    cbn [closures now visibleMessages typingIndex callback due].
    rewrite Hnone. repeat split.
Qed.

End Revisit.

(** ** The settle timer runs *)

Section SettleRuns.
Import ChatSafety AnyRun.
Variable script : list Message.

Lemma earliest_none ts : earliest ts = None → ts = [].
Proof.
  destruct ts as [|u ts]; [reflexivity|]. cbn [earliest].
  destruct (earliest ts) as [v|]; [destruct (due v <? due u)|]; discriminate.
Qed.

(** No pending timer is due before the one that runs next. *)
Lemma earliest_min ts t : earliest ts = Some t → Forall (λ u, due t ≤ due u) ts.
Proof.
  revert t. induction ts as [|u ts IH]; intros t; cbn [earliest]; [discriminate|].
  destruct (earliest ts) as [v|] eqn:Hv.
  - specialize (IH v eq_refl).
    destruct (due v <? due u) eqn:Hlt; intros Heq; simplify_eq.
    + apply Nat.ltb_lt in Hlt. constructor; [lia | exact IH].
    + apply Nat.ltb_ge in Hlt. constructor; [lia|].
      eapply list.Forall_impl; [exact IH|]. intros x Hx. cbn in *. lia.
  - intros Heq. simplify_eq. apply earliest_none in Hv as ->.
    constructor; [lia | constructor].
Qed.

Lemma remove_elem id ts t : t ∈ remove id ts ↔ t ∈ ts ∧ tid t ≠ id.
Proof. unfold remove. rewrite list_elem_of_filter. tauto. Qed.

Lemma remove_absent id ts : id ∉ tid <$> ts → remove id ts = ts.
Proof.
  unfold remove. induction ts as [|u ts IH]; [reflexivity|].
  rewrite fmap_cons, not_elem_of_cons. intros (Hu & Hts).
  rewrite filter_cons. destruct (decide (tid u ≠ id)) as [_|Hn];
    [|exfalso; apply Hn; intros Heq; apply Hu; symmetry; exact Heq].
  rewrite IH by exact Hts. reflexivity.
Qed.

Lemma remove_NoDup id ts : NoDup (tid <$> ts) → NoDup (tid <$> remove id ts).
Proof.
  induction ts as [|u ts IH]; [intros _; constructor|].
  rewrite fmap_cons, list.NoDup_cons. intros (Hu & Hnd).
  unfold remove in *. rewrite filter_cons.
  destruct (decide (tid u ≠ id)); [|apply IH, Hnd].
  rewrite fmap_cons. apply NoDup_cons_2; [|apply IH, Hnd].
  intros (x & Hx & Hin)%list_elem_of_fmap. apply Hu.
  apply list_elem_of_filter in Hin as (_ & Hin).
  rewrite Hx. apply list_elem_of_fmap_2, Hin.
Qed.

(** Two pending timers with the same id are the same timer. *)
Lemma same_id ts t u :
  NoDup (tid <$> ts) → t ∈ ts → u ∈ ts → tid t = tid u → t = u.
Proof.
  induction ts as [|v ts IH]; [intros _ Hin; inversion Hin|].
  rewrite fmap_cons, list.NoDup_cons. intros (Hv & Hnd) Ht Hu Heq.
  apply elem_of_cons in Ht as [-> | Ht]; apply elem_of_cons in Hu as [-> | Hu].
  - reflexivity.
  - exfalso. apply Hv. rewrite Heq. apply list_elem_of_fmap_2, Hu.
  - exfalso. apply Hv. rewrite <- Heq. apply list_elem_of_fmap_2, Ht.
  - apply IH; assumption.
Qed.

(** *** The queue stays in order *)

Lemma wellTimed_same w w' :
  now w' = now w → timers w' = timers w → nextTimerId w' = nextTimerId w →
  wellTimed w → wellTimed w'.
Proof. unfold wellTimed. intros -> -> ->. tauto. Qed.

Lemma wellTimed_pushed cb delay w w' :
  now w' = now w →
  timers w' = timers w ++ [{| tid := nextTimerId w; due := now w + delay;
                              callback := cb |}] →
  nextTimerId w' = S (nextTimerId w) →
  wellTimed w → wellTimed w'.
Proof.
  unfold wellTimed. intros -> -> -> (Hdue & Hnd & Hid). split; [|split].
  - apply list.Forall_app. split; [exact Hdue|].
    constructor; [cbn [due]; lia | constructor].
  - rewrite fmap_app. apply list.NoDup_app. split; [exact Hnd|].
    split; [|apply NoDup_singleton].
    intros x (y & -> & Hy)%list_elem_of_fmap Hx.
    apply list_elem_of_singleton in Hx. cbn [tid] in Hx.
    rewrite list.Forall_forall in Hid. specialize (Hid y Hy). lia.
  - apply list.Forall_app. split.
    + eapply list.Forall_impl; [exact Hid|]. intros x Hx. cbn in *. lia.
    + constructor; [cbn [tid]; lia | constructor].
Qed.

Lemma wellTimed_removed id w w' :
  now w' = now w → timers w' = remove id (timers w) →
  nextTimerId w' = nextTimerId w →
  wellTimed w → wellTimed w'.
Proof.
  unfold wellTimed. intros -> -> -> (Hdue & Hnd & Hid). split; [|split].
  - rewrite list.Forall_forall in *. intros x (Hx & _)%remove_elem. auto.
  - apply remove_NoDup, Hnd.
  - rewrite list.Forall_forall in *. intros x (Hx & _)%remove_elem. auto.
Qed.

(** A callback leaves the clock alone and registers at most one timer,
    which is not a settle timer and is due later than now. *)
Lemma runCallback_queue cb w :
  now (runCallback script cb w) = now w ∧
  ((timers (runCallback script cb w) = timers w ∧
    nextTimerId (runCallback script cb w) = nextTimerId w) ∨
   ∃ cb' delay,
     0 < delay ∧ is_settle cb' = false ∧
     timers (runCallback script cb w)
     = timers w ++ [{| tid := nextTimerId w; due := now w + delay;
                       callback := cb' |}] ∧
     nextTimerId (runCallback script cb w) = S (nextTimerId w)).
Proof.
  destruct w as [t nid tm cl m en vis ty ref eto lg].
  destruct cb as [|r|r msg|r msg]; cbn [runCallback]; unfold_world;
    cbn [now timers nextTimerId closures Comparison.mounted entry
         visibleMessages typingIndex hasBeenVisibleRef effectTimeout log];
    repeat case_match; cbn [now timers nextTimerId fst snd];
    (split; [reflexivity|]);
    first [ left; split; reflexivity
          | right; eexists _, _; split; [|split; [|split; reflexivity]];
            [lia | reflexivity] ].
Qed.

Lemma runCallback_wellTimed cb w : wellTimed w → wellTimed (runCallback script cb w).
Proof.
  intros Hwt.
  destruct (runCallback_queue cb w)
    as (Hnow & [(Htm & Hid) | (cb' & delay & _ & _ & Htm & Hid)]).
  - exact (wellTimed_same _ _ Hnow Htm Hid Hwt).
  - exact (wellTimed_pushed _ _ _ _ Hnow Htm Hid Hwt).
Qed.

(** The state in which the callback of the timer [t] runs. *)
Lemma fired_wellTimed w t :
  wellTimed w → earliest (timers w) = Some t →
  wellTimed (with_clock (Nat.max (now w) (due t))
               (with_queue (nextTimerId w) (remove (tid t) (timers w)) w)).
Proof.
  intros (Hdue & Hnd & Hid) Ht. pose proof (earliest_min _ _ Ht) as Hmin.
  unfold wellTimed, with_clock, with_queue. cbn [now timers nextTimerId].
  split; [|split].
  - rewrite list.Forall_forall in *. intros x (Hx & _)%remove_elem.
    specialize (Hdue x Hx). specialize (Hmin x Hx). lia.
  - apply remove_NoDup, Hnd.
  - rewrite list.Forall_forall in *. intros x (Hx & _)%remove_elem. auto.
Qed.

Lemma fire_wellTimed w : wellTimed w → wellTimed (fire script w).
Proof.
  intros Hwt. unfold fire. destruct (earliest (timers w)) as [t|] eqn:Ht;
    [|exact Hwt].
  apply runCallback_wellTimed, fired_wellTimed; assumption.
Qed.

Lemma wait_wellTimed ms w : wellTimed w → wellTimed (wait ms w).
Proof.
  intros (Hdue & Hnd & Hid). unfold wait.
  destruct (earliest (timers w)) as [t|] eqn:Ht.
  - pose proof (earliest_min _ _ Ht) as Hmin.
    unfold wellTimed, with_clock. cbn [now timers nextTimerId].
    split; [|split; assumption].
    rewrite list.Forall_forall in *. intros x Hx.
    pose proof (Hdue t (earliest_elem _ _ Ht)) as Hnow.
    specialize (Hdue x Hx). specialize (Hmin x Hx). lia.
  - apply earliest_none in Ht. unfold wellTimed, with_clock.
    cbn [now timers nextTimerId]. rewrite Ht in *.
    split; [constructor | split; assumption].
Qed.

Lemma effectCleanup_wellTimed w : wellTimed w → wellTimed (effectCleanup w).
Proof.
  intros Hwt. unfold effectCleanup, clearTimeout.
  destruct (effectTimeout w) as [id|]; [|exact Hwt].
  apply (wellTimed_removed id w); [reflexivity..|exact Hwt].
Qed.

Lemma effectBody_wellTimed w : wellTimed w → wellTimed (effectBody w).
Proof.
  intros Hwt. unfold effectBody.
  destruct (comparisonVisible w && negb (hasBeenVisibleRef w)).
  - apply (wellTimed_pushed CbSettle 1000 w); [reflexivity..|exact Hwt].
  - destruct (negb (comparisonVisible w) && hasBeenVisibleRef w); exact Hwt.
Qed.

Lemma step_wellTimed w e : wellTimed w → wellTimed (step script w e).
Proof.
  intros Hwt. destruct e as [b| |ms|]; cbn [step].
  - unfold intersect. destruct (Comparison.mounted w); [|exact Hwt].
    case_bool_decide; [exact Hwt|].
    apply effectBody_wellTimed, effectCleanup_wellTimed. exact Hwt.
  - apply fire_wellTimed, Hwt.
  - apply wait_wellTimed, Hwt.
  - unfold unmount. destruct (Comparison.mounted w); [|exact Hwt].
    apply (wellTimed_same (effectCleanup w)); [reflexivity..|].
    apply effectCleanup_wellTimed, Hwt.
Qed.

Lemma run_wellTimed evs : wellTimed (run script evs mount).
Proof.
  unfold run. rewrite <- (rev_involutive evs).
  induction (rev evs) as [|e evs' IH].
  - repeat split; constructor.
  - cbn [rev]. rewrite fold_left_app. cbn [fold_left].
    apply step_wellTimed, IH.
Qed.

(** *** The time left before a moment *)

Lemma slack_remove T t ts :
  NoDup (tid <$> ts) → t ∈ ts →
  slack T ts = (T + 1 - due t) + slack T (remove (tid t) ts).
Proof.
  unfold slack. induction ts as [|u ts IH]; [intros _ Hin; inversion Hin|].
  rewrite fmap_cons, list.NoDup_cons. intros (Hu & Hnd) Hin.
  apply elem_of_cons in Hin as [-> | Hin].
  - unfold remove. rewrite filter_cons.
    destruct (decide (tid u ≠ tid u)); [congruence|].
    fold (remove (tid u) ts). rewrite remove_absent by exact Hu. reflexivity.
  - assert (Hne : tid u ≠ tid t).
    { intros Heq. apply Hu. rewrite Heq. apply list_elem_of_fmap_2, Hin. }
    unfold remove. rewrite filter_cons.
    destruct (decide (tid u ≠ tid t)); [|contradiction].
    fold (remove (tid t) ts). cbn [sum_list_with].
    rewrite (IH Hnd Hin). lia.
Qed.

(** Running a timer that is due by [T] takes from the time left before
    [T]: the timer it registers, if any, is due later than it was. *)
Lemma fire_slack T w t :
  wellTimed w → earliest (timers w) = Some t → due t ≤ T →
  slack T (timers (fire script w)) < slack T (timers w).
Proof.
  intros Hwt Ht HT. pose proof Hwt as (Hdue & Hnd & _).
  pose proof (earliest_elem _ _ Ht) as Hin.
  rewrite (slack_remove T t (timers w) Hnd Hin).
  unfold fire. rewrite Ht.
  destruct (runCallback_queue (callback t)
              (with_clock (Nat.max (now w) (due t))
                 (with_queue (nextTimerId w) (remove (tid t) (timers w)) w)))
    as (_ & [(-> & _) | (cb' & delay & Hpos & _ & -> & _)]).
  - cbn [timers with_clock with_queue]. lia.
  - cbn [timers now nextTimerId with_clock with_queue]. unfold slack.
    rewrite sum_list_with_app. cbn [sum_list_with due]. lia.
Qed.

(** *** From the registration of the settle timer to the activation *)

(** While the settle timer [s] is the only one of its kind in the queue,
    the timers due before it run without starting the chat, and then [s]
    runs, at its due time, and starts it. *)
Lemma settle_fires s n : ∀ w,
  slack (due s) (timers w) ≤ n → wellTimed w →
  callback s = CbSettle → settleTimers w = [s] →
  ∃ k,
    (∀ j, j ≤ k → activations (fires script j w) = activations w) ∧
    activations (fires script (S k) w) = S (activations w) ∧
    now (fires script (S k) w) = due s.
Proof.
  induction n as [|n IH]; intros w Hsl Hwt Hcb Hone.
  - exfalso. pose proof Hwt as (_ & Hnd & _).
    assert (Hin : s ∈ timers w).
    { assert (Hs : s ∈ settleTimers w) by (rewrite Hone; apply list_elem_of_here).
      unfold settleTimers in Hs. apply list_elem_of_filter in Hs as (_ & Hs).
      exact Hs. }
    rewrite (slack_remove _ s _ Hnd Hin) in Hsl. lia.
  - pose proof Hwt as (Hdue & Hnd & _).
    assert (Hin : s ∈ timers w).
    { assert (Hs : s ∈ settleTimers w) by (rewrite Hone; apply list_elem_of_here).
      unfold settleTimers in Hs. apply list_elem_of_filter in Hs as (_ & Hs).
      exact Hs. }
    destruct (earliest (timers w)) as [t|] eqn:Ht;
      [|apply earliest_none in Ht; rewrite Ht in Hin; inversion Hin].
    pose proof (earliest_elem _ _ Ht) as Htin.
    pose proof (earliest_min _ _ Ht) as Hmin.
    rewrite list.Forall_forall in Hmin, Hdue.
    pose proof (Hmin s Hin) as Hts. pose proof (Hdue t Htin) as Hnow.
    pose proof (Hdue s Hin) as Hnows.
    destruct (runCallback_frame script (callback t)
                (with_clock (Nat.max (now w) (due t))
                   (with_queue (nextTimerId w) (remove (tid t) (timers w)) w)))
      as (_ & _ & Hact & _).
    destruct (runCallback_queue (callback t)
                (with_clock (Nat.max (now w) (due t))
                   (with_queue (nextTimerId w) (remove (tid t) (timers w)) w)))
      as (Hclock & _).
    assert (Hfire : fire script w
              = runCallback script (callback t)
                  (with_clock (Nat.max (now w) (due t))
                     (with_queue (nextTimerId w) (remove (tid t) (timers w)) w)))
      by (unfold fire; rewrite Ht; reflexivity).
    destruct (is_settle (callback t)) eqn:Hset.
    + assert (t = s) as ->.
      { assert (Hs : t ∈ settleTimers w)
          by (unfold settleTimers; apply list_elem_of_filter; split; assumption).
        rewrite Hone in Hs. apply list_elem_of_singleton in Hs. exact Hs. }
      exists 0. split; [intros j Hj; replace j with 0 by lia; reflexivity|].
      change (fires script 1 w) with (fire script w).
      rewrite Hfire, Hact, Hclock.
      unfold activations. cbn [closures now with_clock with_queue]. split; lia.
    + assert (Hid : tid s ≠ tid t).
      { intros Heq. assert (s = t) by (apply (same_id (timers w)); assumption).
        subst t. rewrite Hcb in Hset. discriminate. }
      assert (Hone' : settleTimers (fire script w) = [s]).
      { rewrite Hfire, settleTimers_runCallback.
        change (settleTimers
                  (with_clock (Nat.max (now w) (due t))
                     (with_queue (nextTimerId w) (remove (tid t) (timers w)) w)))
          with (settleTimers
                  (with_queue (nextTimerId w) (remove (tid t) (timers w)) w)).
        rewrite settleTimers_remove, Hone.
        destruct (remove_one (tid t) s) as [Hgone | (-> & _)]; [|reflexivity].
        exfalso. assert (Hs : s ∈ remove (tid t) [s]).
        { apply remove_elem. split; [apply list_elem_of_here | exact Hid]. }
        rewrite Hgone in Hs. inversion Hs. }
      pose proof (fire_slack (due s) w t Hwt Ht Hts) as Hless.
      destruct (IH (fire script w) ltac:(lia) (fire_wellTimed w Hwt) Hcb Hone')
        as (k & Hbefore & Hstart & Htime).
      assert (Hsame : activations (fire script w) = activations w).
      { rewrite Hfire, Hact. unfold activations.
        cbn [closures with_clock with_queue]. lia. }
      exists (S k). split; [|split].
      * intros [|j] Hj; [reflexivity|].
        rewrite fires_succ, Hbefore by lia. exact Hsame.
      * rewrite fires_succ, Hstart, Hsame. reflexivity.
      * rewrite fires_succ. exact Htime.
Qed.

Lemma run_ref_tracks evs :
  hasBeenVisibleRef (run script evs mount) = comparisonVisible (run script evs mount).
Proof.
  unfold run. rewrite <- (rev_involutive evs).
  induction (rev evs) as [|e evs' IH]; [reflexivity|].
  cbn [rev]. rewrite fold_left_app. cbn [fold_left].
  apply step_ref_tracks, IH.
Qed.

(** The host enters the viewport: the effect registers the settle timer,
    which is then the only one of its kind. *)
Lemma enter_registers w :
  settleInv w → Comparison.mounted w = true → comparisonVisible w = false →
  hasBeenVisibleRef w = false →
  ∃ s, callback s = CbSettle ∧ due s = now w + 1000 ∧
       settleTimers (step script w (Intersect true)) = [s] ∧
       activations (step script w (Intersect true)) = activations w.
Proof.
  intros Hinv Hm Hcv Href.
  assert (Hclean : settleTimers (effectCleanup (with_entry (Some true) w)) = []).
  { apply effectCleanup_settle.
    destruct Hinv as [Hnone | (t & Hone & Hid & _)];
      [left; exact Hnone | right; exists t; split; assumption]. }
  exists {| tid := nextTimerId (effectCleanup (with_entry (Some true) w));
            due := now w + 1000; callback := CbSettle |}.
  cbn [step]. unfold intersect. rewrite Hm, Hcv.
  change (comparisonVisible (with_entry (Some true) w)) with true.
  rewrite bool_decide_eq_false_2 by discriminate.
  assert (Hgo : comparisonVisible (effectCleanup (with_entry (Some true) w))
                && negb (hasBeenVisibleRef (effectCleanup (with_entry (Some true) w)))
                = true).
  { unfold effectCleanup, clearTimeout, comparisonVisible.
    destruct (effectTimeout (with_entry (Some true) w)); cbn; rewrite Href;
      reflexivity. }
  assert (Hnow : now (effectCleanup (with_entry (Some true) w)) = now w)
    by (unfold effectCleanup, clearTimeout;
        destruct (effectTimeout (with_entry (Some true) w)); reflexivity).
  assert (Hcl : closures (effectCleanup (with_entry (Some true) w)) = closures w)
    by (unfold effectCleanup, clearTimeout;
        destruct (effectTimeout (with_entry (Some true) w)); reflexivity).
  unfold effectBody. rewrite Hgo.
  unfold settleTimers, activations in *. unfold setTimeout.
  cbn [timers closures with_effectTimeout with_queue with_ref fst snd now].
  rewrite list.filter_app, Hclean, Hnow, Hcl.
  repeat split.
Qed.

End SettleRuns.

(** C1, amended.  The chat is activated 1000 ms after the host becomes
    visible, and at most once for each change of the host's visibility from
    false to true: in every sequence of events the number of activations is
    bounded by the number of such changes that happen while the host is
    mounted.  Notifications that repeat the current visibility, and
    everything after the unmount, add none.  The flag does not keep a
    later visit from activating the chat again: in every state in which
    the mounted host is out of view the flag is false, and when the host
    then enters the viewport and the timers are left to run, the chat is
    activated once more, 1000 ms after the entry. *)
Theorem activation_once_per_rising_edge (script : list Message) :
  (∀ t0,
     let w := run script [Wait t0; Intersect true] mount in
     timers w = [{| tid := 0; due := t0 + 1000; callback := CbSettle |}] ∧
     activations w = 0 ∧
     now (fire script w) = t0 + 1000 ∧ activations (fire script w) = 1) ∧
  (∀ evs, activations (run script evs mount) ≤ risingEdges false evs) ∧
  (∀ evs,
     let w := run script evs mount in
     mounted w = true → comparisonVisible w = false →
     hasBeenVisibleRef w = false ∧
     ∃ k,
       (∀ j, j ≤ k →
          activations (fires script j (step script w (Intersect true)))
          = activations w) ∧
       activations (fires script (S k) (step script w (Intersect true)))
       = S (activations w) ∧
       now (fires script (S k) (step script w (Intersect true)))
       = now w + 1000).
Proof.
  split; [|split].
  - intros t0. cbv zeta. unfold run. cbn [fold_left step].
    unfold wait, mount, effectBody. cbn.
    unfold intersect, effectBody, effectCleanup, comparisonVisible. cbn.
    rewrite bool_decide_eq_false_2 by discriminate. cbn.
    unfold fire, activations. cbn [timers with_effectTimeout with_queue earliest].
    cbn. repeat split. apply Nat.max_r, Nat.le_add_r.
  - intros evs.
    pose proof (run_potential script evs mount false (λ _, eq_refl)) as Hrun.
    change (potential mount) with 0 in Hrun.
    change (Comparison.mounted mount) with true in Hrun.
    unfold potential in Hrun. lia.
  - intros evs. cbv zeta. intros Hm Hcv.
    assert (Href : hasBeenVisibleRef (run script evs mount) = false).
    { rewrite run_ref_tracks. exact Hcv. }
    split; [exact Href|].
    destruct (enter_registers script _ (run_settle script evs) Hm Hcv Href)
      as (s & Hcb & Hdue & Hone & Hact).
    destruct (settle_fires script s _ (step script (run script evs mount) (Intersect true))
                (Nat.le_refl _)
                (step_wellTimed script _ _ (run_wellTimed script evs)) Hcb Hone)
      as (k & Hbefore & Hstart & Htime).
    exists k. rewrite <- Hact, <- Hdue. repeat split; assumption.
Qed.

Lemma activation_once_per_rising_edge_witness :
  let w := run messages [Intersect true; Fire; Intersect false] mount in
  mounted w = true ∧ comparisonVisible w = false ∧ activations w = 1 ∧
  ∃ k, activations (fires messages (S k) (step messages w (Intersect true))) = 2.
Proof.
  cbv zeta. split; [reflexivity|]. split; [reflexivity|]. split; [reflexivity|].
  destruct (activation_once_per_rising_edge messages) as (_ & _ & Hagain).
  destruct (Hagain [Intersect true; Fire; Intersect false] eq_refl eq_refl)
    as (_ & k & _ & Hstart & _).
  exists k. exact Hstart.
Defined.
